(** * mini-rag-reranker: score fusion and confidence-gated answer synthesis

    A shallow embedding of [reranker.py] (class [HybridReranker]) and
    [answer_generator.py] (class [AnswerGenerator]), with the constants of
    [config.py].

    Modelling conventions.
    - A Python [float] is an exact rational ([Q]); [int] is [Z].  Rounding,
      overflow, infinities and NaN of IEEE-754 doubles are outside the model.
    - A [str] is a [string] of 8-bit characters; the character classes of
      [re] and [str] are the ASCII ones.
    - A [dict] with string keys is a [gmap string value]; a [set] of strings
      is a [gset string].
    - An exception is a value of [exn]; a computation that may raise returns
      [res].  An operation applied to a value of the wrong dynamic type
      raises [TypeError].
    - [HybridReranker.rerank] allocates and updates objects, so it runs on
      an explicit object store ([heap]); [AnswerGenerator] only reads its
      arguments and is a function of their contents. *)

From Stdlib Require Import QArith ZArith Ascii String DecimalString Lqa.
From stdpp Require Import gmap strings list fin_maps sorting.

Open Scope string_scope.
Open Scope list_scope.

(** ** Exceptions *)

Inductive exn :=
  | KeyError (k : string)
  | TypeError
  | IndexError.

Inductive res (A : Type) :=
  | Ok (a : A)
  | Raise (e : exn).
Arguments Ok {A} a.
Arguments Raise {A} e.

#[global] Instance res_ret : MRet res := λ A a, Ok a.

#[global] Instance res_bind : MBind res := λ A B f x,
  match x with
  | Ok a => f a
  | Raise e => Raise e
  end.

#[global] Instance res_fmap : FMap res := λ A B f x,
  match x with
  | Ok a => Ok (f a)
  | Raise e => Raise e
  end.

(** ** Text: the fragment of [str] and [re] the program uses *)

Module PyStr.

Definition code (c : ascii) : N := N_of_ascii c.

Definition between (lo hi : N) (c : ascii) : bool :=
  (lo <=? code c)%N && (code c <=? hi)%N.

(** [\w]: letters, digits and the underscore. *)
Definition is_word_char (c : ascii) : bool :=
  between 48 57 c || between 65 90 c || between 97 122 c || (code c =? 95)%N.

(** The class [[.!?]]. *)
Definition is_terminal (c : ascii) : bool :=
  (code c =? 46)%N || (code c =? 33)%N || (code c =? 63)%N.

(** What [str.strip()] removes: tab, LF, VT, FF, CR, FS, GS, RS, US, space. *)
Definition is_space (c : ascii) : bool :=
  between 9 13 c || between 28 32 c.

Definition lower_char (c : ascii) : ascii :=
  if between 65 90 c then ascii_of_N (code c + 32) else c.

(** [s.lower()] *)
Fixpoint lower (s : string) : string :=
  match s with
  | EmptyString => EmptyString
  | String c s' => String (lower_char c) (lower s')
  end.

Fixpoint lstrip (s : string) : string :=
  match s with
  | EmptyString => EmptyString
  | String c s' => if is_space c then lstrip s' else s
  end.

Definition rev (s : string) : string :=
  string_of_list_ascii (List.rev (list_ascii_of_string s)).

Definition rstrip (s : string) : string := rev (lstrip (rev s)).

(** [s.strip()] *)
Definition strip (s : string) : string := rstrip (lstrip s).

(** [bool(s)]: a string is true when it is not empty. *)
Definition truthy (s : string) : bool :=
  match s with EmptyString => false | _ => true end.

Definition snoc (s : string) (c : ascii) : string := s +:+ String c EmptyString.

(** [re.split(r'[.!?]+', text)]: the pieces between maximal runs of
    terminal punctuation; [cur] is the piece being read and [in_sep]
    tells that the previous character belonged to a separator. *)
Fixpoint split_terminal_from (cur : string) (in_sep : bool) (s : string) : list string :=
  match s with
  | EmptyString => [cur]
  | String c s' =>
      if is_terminal c then
        if in_sep then split_terminal_from cur true s'
        else cur :: split_terminal_from EmptyString true s'
      else split_terminal_from (snoc cur c) false s'
  end.

Definition split_terminal (text : string) : list string :=
  split_terminal_from EmptyString false text.

Definition flush (cur : string) : list string :=
  if truthy cur then [cur] else [].

(** [re.findall(r'\b\w+\b', s)]: the maximal runs of word characters. *)
Fixpoint findall_words_from (cur : string) (s : string) : list string :=
  match s with
  | EmptyString => flush cur
  | String c s' =>
      if is_word_char c then findall_words_from (snoc cur c) s'
      else flush cur ++ findall_words_from EmptyString s'
  end.

Definition findall_words (s : string) : list string :=
  findall_words_from EmptyString s.

(** [sep.join(parts)] *)
Fixpoint join (sep : string) (parts : list string) : string :=
  match parts with
  | [] => EmptyString
  | [p] => p
  | p :: rest => p +:+ sep +:+ join sep rest
  end.

(** [s[:n]] *)
Definition prefix (n : nat) (s : string) : string := String.substring 0 n s.

(** [str(n)] for a natural number. *)
Definition of_nat (n : nat) : string := NilZero.string_of_uint (Nat.to_uint n).

(** [needle in s] *)
Fixpoint contains (needle s : string) : bool :=
  String.prefix needle s ||
  match s with
  | EmptyString => false
  | String _ s' => contains needle s'
  end.

End PyStr.

(** ** Numbers *)

Module PyNum.

Open Scope Z_scope.

(** Nearest integer to [a / d] ([0 <= a], [0 < d]), halves to the even one. *)
Definition div_half_even (a d : Z) : Z :=
  let k := a / d in
  let r := a mod d in
  if (d <? 2 * r) then k + 1
  else if (2 * r =? d) then (if Z.even k then k else k + 1)
  else k.

Definition digit (z : Z) : string := PyStr.of_nat (Z.to_nat z).

(** [format(x, '.3f')]: sign, integer part, and three decimals of the
    rounded magnitude. *)
Definition format_3f (x : Q) : string :=
  let k := div_half_even (Z.abs (Qnum x) * 1000) (Zpos (Qden x)) in
  let f := k mod 1000 in
  (if Qnum x <? 0 then "-" else "") +:+
  PyStr.of_nat (Z.to_nat (k / 1000)) +:+ "." +:+
  digit (f / 100) +:+ digit ((f / 10) mod 10) +:+ digit (f mod 10).

End PyNum.

(** ** Values and dictionaries *)

Inductive value :=
  | VInt (z : Z)
  | VFloat (q : Q)
  | VStr (s : string).

Abbreviation dict := (gmap string value).

Module Py.

(** [d[k]] *)
Definition getitem (d : dict) (k : string) : res value :=
  match d !! k with
  | Some v => Ok v
  | None => Raise (KeyError k)
  end.

(** [d.get(k, dflt)] *)
Definition get (d : dict) (k : string) (dflt : value) : value :=
  default dflt (d !! k).

(** The number a value stands for in arithmetic and comparisons. *)
Definition as_num (v : value) : res Q :=
  match v with
  | VInt z => Ok (inject_Z z)
  | VFloat q => Ok q
  | VStr _ => Raise TypeError
  end.

Definition as_str (v : value) : res string :=
  match v with
  | VStr s => Ok s
  | _ => Raise TypeError
  end.

(** [x < y] on numbers *)
Definition lt (x y : Q) : bool := negb (Qle_bool y x).

(** [l[i]] *)
Definition index {A} (l : list A) (i : nat) : res A :=
  match l !! i with
  | Some x => Ok x
  | None => Raise IndexError
  end.

(** A [for] loop that threads the loop state [S] and may raise. *)
Fixpoint for_each {A S} (body : S → A → res S) (l : list A) (s : S) : res S :=
  match l with
  | [] => Ok s
  | x :: l' => s' ← body s x; for_each body l' s'
  end.

(** [list.sort(key=..., reverse=True)] on the list of (item, key) pairs:
    insertion keeps an element in front of the later ones of equal key,
    as CPython's stable sort does. *)
Section sort.
Context {A K : Type} (le : K → K → bool).

Fixpoint insert_desc (x : A * K) (l : list (A * K)) : list (A * K) :=
  match l with
  | [] => [x]
  | y :: l' => if le y.2 x.2 then x :: y :: l' else y :: insert_desc x l'
  end.

Definition sort_desc (l : list (A * K)) : list (A * K) :=
  foldr insert_desc [] l.
End sort.

End Py.

(** ** config.py *)

Module config.
Definition DEFAULT_K : Z := 10.
Definition CANDIDATE_K : Z := 30.
Definition SIMILARITY_THRESHOLD : Q := 7 # 10.
Definition ALPHA : Q := 6 # 10.
End config.

(** ** answer_generator.py *)

Module AnswerGenerator.

Record t := { threshold : Q }.

(** [__init__] *)
Definition init : t := {| threshold := config.SIMILARITY_THRESHOLD |}.

(** A citation, the dictionary literal built in [generate_answer]. *)
Record citation := {
  source : value;
  url : value;
  score : value;
  text : string
}.

Definition nl : string := String (ascii_of_nat 10) EmptyString.

(** [context.get('hybrid_score', context.get('vector_score', 0))] *)
Definition context_score (context : dict) : value :=
  Py.get context "hybrid_score" (Py.get context "vector_score" (VInt 0)).

(** The words of [s]: [set(re.findall(r'\b\w+\b', s.lower()))]. *)
Definition words (s : string) : gset string :=
  list_to_set (PyStr.findall_words (PyStr.lower s)).

(** The sentences of [text]: the pieces of [re.split], stripped, without
    the empty ones. *)
Definition sentences_of (text : string) : list string :=
  PyStr.strip <$> filter (λ s, PyStr.truthy (PyStr.strip s) = true) (PyStr.split_terminal text).

Definition overlap (query_words : gset string) (sentence : string) : nat :=
  size (query_words ∩ words sentence).

(** The test [score > 0 and len(sentence) > 20]. *)
Definition qualifies (x : string * nat) : bool :=
  (0 <? x.2)%nat && (20 <? String.length x.1)%nat.

Definition scored_sentences (query text : string) : list (string * nat) :=
  let query_words := words query in
  (λ sentence, (sentence, overlap query_words sentence)) <$> sentences_of text.

Definition _extract_relevant_sentences (query text : string) : list string :=
  let scored_sentences := Py.sort_desc Nat.leb (scored_sentences query text) in
  fst <$> filter (λ x, qualifies x = true) (take 2 scored_sentences).

(** The selection as the specification words it: of the ranked sentences,
    those with overlap > 0 and more than 20 characters, at most 2. *)
Definition extract_as_specified (query text : string) : list string :=
  let ranked := Py.sort_desc Nat.leb (scored_sentences query text) in
  fst <$> take 2 (filter (λ x, qualifies x = true) ranked).

(** One pass of the loop that removes duplicates: the state is
    [(seen, unique_parts)]. *)
Definition dedup_step (st : gset string * list string) (part : string)
  : gset string * list string :=
  if decide (part ∈ st.1) then st else ({[part]} ∪ st.1, st.2 ++ [part]).

Definition unique_parts (answer_parts : list string) : list string :=
  (foldl dedup_step (∅, []) answer_parts).2.

(** The dictionaries [format_response] builds. *)
Module Response.
Record context := {
  text : value;
  score : value;
  source : value;
  url : value
}.
Record t := {
  answer : option string;
  contexts : list context;
  reranker_used : bool;
  reason : string;
  query : string
}.
End Response.

Section with_str.
(** [str(x)] of a float [x] (the shortest decimal that reads back as
    [x]) is the interpreter's; the program only prints it. *)
Variable str_float : Q → string.

Definition str_value (v : value) : string :=
  match v with
  | VInt z => (if (z <? 0)%Z then "-" else "") +:+ PyStr.of_nat (Z.abs_nat z)
  | VFloat q => str_float q
  | VStr s => s
  end.

Definition citation_ref (i : nat) (c : citation) : string :=
  "[" +:+ PyStr.of_nat (S i) +:+ "] " +:+ str_value (source c).

Definition _combine_answer_parts (answer_parts : list string) (citations : list citation)
  : string :=
  let answer := PyStr.join " " (unique_parts answer_parts) in
  match citations with
  | [] => answer
  | _ => answer +:+ nl +:+ nl +:+ "Sources: " +:+ PyStr.join ", " (imap citation_ref citations)
  end.

(** [text[:200] + "..." if len(text) > 200 else text] *)
Definition preview (text : string) : string :=
  if (200 <? String.length text)%nat then PyStr.prefix 200 text +:+ "..." else text.

(** The body of the loop over [contexts[:3]]; its state is
    [(answer_parts, citations)]. *)
Definition visit (self : t) (query : string)
    (st : list string * list citation) (context : dict)
  : res (list string * list citation) :=
  let score := context_score context in
  s ← Py.as_num score;
  if Py.lt s (threshold self * (7 # 10)) then Ok st
  else
    chunk_text ← Py.getitem context "chunk_text" ≫= Py.as_str;
    let relevant_sentences := _extract_relevant_sentences query chunk_text in
    match relevant_sentences with
    | [] => Ok st
    | _ =>
        title ← Py.getitem context "title";
        u ← Py.getitem context "url";
        Ok (st.1 ++ relevant_sentences,
            st.2 ++ [ {| source := title; url := u; score := score;
                         text := preview chunk_text |} ])
    end.

Definition collect (self : t) (query : string) (contexts : list dict)
  : res (list string * list citation) :=
  Py.for_each (visit self query) (take 3 contexts) ([], []).

Definition gate_reason (self : t) (top_score : Q) : string :=
  "Top result score (" +:+ PyNum.format_3f top_score +:+
  ") below confidence threshold (" +:+ str_float (threshold self) +:+ ")".

(** [generate_answer] after the confidence gate. *)
Definition synthesize (self : t) (query : string) (contexts : list dict) (top_score : Q)
  : res (option string * string) :=
  '(answer_parts, citations) ← collect self query contexts;
  match answer_parts with
  | [] => Ok (None, "No relevant information found in contexts")
  | _ =>
      Ok (Some (_combine_answer_parts answer_parts citations),
          "Answer generated from " +:+ PyStr.of_nat (length citations) +:+
          " sources with top score " +:+ PyNum.format_3f top_score)
  end.

Definition generate_answer (self : t) (query : string) (contexts : list dict)
    (reranker_used : bool) : res (option string * string) :=
  match contexts with
  | [] => Ok (None, "No relevant contexts found")
  | first :: _ =>
      top_score ← Py.as_num (context_score first);
      if Py.lt top_score (threshold self) then Ok (None, gate_reason self top_score)
      else synthesize self query contexts top_score
  end.

(** One entry of [formatted_contexts]. *)
Definition format_context (context : dict) : res Response.context :=
  chunk_text ← Py.getitem context "chunk_text";
  title ← Py.getitem context "title";
  u ← Py.getitem context "url";
  Ok {| Response.text := chunk_text;
        Response.score := context_score context;
        Response.source := title;
        Response.url := u |}.

Definition format_response (self : t) (query : string) (contexts : list dict)
    (reranker_used : bool) : res Response.t :=
  '(answer, reason) ← generate_answer self query contexts reranker_used;
  formatted_contexts ← mapM format_context contexts;
  Ok {| Response.answer := answer;
        Response.contexts := formatted_contexts;
        Response.reranker_used := reranker_used;
        Response.reason := reason;
        Response.query := query |}.

End with_str.

End AnswerGenerator.

(** ** The object store *)

Module Heap.

Definition loc := positive.

Inductive obj :=
  | ODict (d : dict)
  | OList (items : list loc).

Abbreviation heap := (gmap loc obj).

(** A computation on the store that may raise. *)
Definition M (A : Type) : Type := heap → res (A * heap).

#[global] Instance M_ret : MRet M := λ A a h, Ok (a, h).

#[global] Instance M_bind : MBind M := λ A B f m h,
  match m h with
  | Ok (a, h') => f a h'
  | Raise e => Raise e
  end.

Definition lift {A} (r : res A) : M A := λ h,
  match r with
  | Ok a => Ok (a, h)
  | Raise e => Raise e
  end.

(** A new object lives at an address the store does not use yet. *)
Definition alloc (o : obj) : M loc := λ h,
  let l := fresh (dom h) in Ok (l, <[l := o]> h).

Definition read_dict (l : loc) : M dict := λ h,
  match h !! l with
  | Some (ODict d) => Ok (d, h)
  | _ => Raise TypeError
  end.

Definition read_list (l : loc) : M (list loc) := λ h,
  match h !! l with
  | Some (OList items) => Ok (items, h)
  | _ => Raise TypeError
  end.

(** [d[k] = v], in place *)
Definition setitem (l : loc) (k : string) (v : value) : M unit := λ h,
  match h !! l with
  | Some (ODict d) => Ok ((), <[l := ODict (<[k := v]> d)]> h)
  | _ => Raise TypeError
  end.

(** [lst.append(x)], in place *)
Definition append (l : loc) (x : loc) : M unit := λ h,
  match h !! l with
  | Some (OList items) => Ok ((), <[l := OList (items ++ [x])]> h)
  | _ => Raise TypeError
  end.

Definition store (l : loc) (o : obj) : M unit := λ h, Ok ((), <[l := o]> h).

(** [d.copy()]: a new dictionary with the same entries *)
Definition copy (l : loc) : M loc :=
  d ← read_dict l; alloc (ODict d).

(** [for i, x in enumerate(l, i0): body] *)
Fixpoint for_enum {A} (body : nat → A → M unit) (i0 : nat) (l : list A) : M unit :=
  match l with
  | [] => mret ()
  | x :: l' => body i0 x;; for_enum body (S i0) l'
  end.

(** [lst.sort(key=key, reverse=True)], in place: the keys are computed
    first, one per element, then the list is reordered. *)
Definition sort_desc_by (l : loc) (key : loc → M Q) : M unit :=
  items ← read_list l;
  keys ← mapM key items;
  store l (OList (Py.sort_desc Qle_bool (zip items keys)).*1).

(** The dictionaries a list object refers to. *)
Definition contents (h : heap) (l : loc) : option (list dict) :=
  match h !! l with
  | Some (OList items) =>
      mapM (M := option) (λ x : loc, match h !! x with Some (ODict d) => Some d | _ => None end) items
  | _ => None
  end.

End Heap.

(** ** reranker.py *)

Module HybridReranker.
Import Heap.

(** [rank_bm25.BM25Okapi]: an index answers [get_scores] with one score
    per document of the corpus it was built from. *)
Record BM25Okapi := { get_scores : list string → list Q }.

Record t := {
  bm25 : option BM25Okapi;
  corpus : list string;
  chunk_ids : list Z
}.

Definition _tokenize (text : string) : list string :=
  PyStr.findall_words (PyStr.lower text).

Section build.
(** The constructor [BM25Okapi(tokenized_corpus)]. *)
Variable BM25Okapi_new : list (list string) → BM25Okapi.

(** [chunks] are the rows [(id, chunk_text)] the database returns. *)
Definition _build_bm25_index (self : t) (chunks : list (Z * string)) : t :=
  match chunks with
  | [] => self
  | _ =>
      {| bm25 := Some (BM25Okapi_new ((λ c, _tokenize c.2) <$> chunks));
         corpus := snd <$> chunks;
         chunk_ids := chunk_ids self ++ (fst <$> chunks) |}
  end.

(** [__init__] *)
Definition init (chunks : list (Z * string)) : t :=
  _build_bm25_index {| bm25 := None; corpus := []; chunk_ids := [] |} chunks.
End build.

(** [min(scores)] and [max(scores)] of a non-empty list: the first
    smallest and the first largest element. *)
Definition py_min (x : Q) (l : list Q) : Q :=
  foldl (λ m y, if Py.lt y m then y else m) x l.
Definition py_max (x : Q) (l : list Q) : Q :=
  foldl (λ m y, if Py.lt m y then y else m) x l.

Definition _normalize_scores (scores : list Q) : list Q :=
  match scores with
  | [] => scores
  | x :: l =>
      let min_score := py_min x l in
      let max_score := py_max x l in
      if Qeq_bool max_score min_score then replicate (length scores) 1%Q
      else (λ score, (score - min_score) / (max_score - min_score))%Q <$> scores
  end.

(** [chunk_id_to_bm25[chunk_id] = bm25_scores[i]] for every [i] *)
Definition id_to_bm25 (ids : list Z) (bm25_scores : list Q) : res (gmap Z Q) :=
  Py.for_each (λ (m : gmap Z Q) (x : nat * Z),
                 s ← Py.index bm25_scores x.1; Ok (<[x.2 := s]> m))
              (imap pair ids) ∅.

(** [chunk_id_to_bm25.get(key, 0.0)]: an integer finds its entry, and so
    does a float of integral value; any other key is absent. *)
Definition get_bm25 (m : gmap Z Q) (key : value) : Q :=
  match key with
  | VInt z => default 0%Q (m !! z)
  | VFloat q =>
      if decide (Qden (Qred q) = 1%positive) then default 0%Q (m !! Qnum (Qred q)) else 0%Q
  | VStr _ => 0%Q
  end.

Section fusion.
(** The weight [ALPHA] of [config.py]. *)
Variable ALPHA : Q.

(** The body of the loop over [enumerate(vector_results)]: the copy of
    [result] with its four scores is appended to [hybrid_results]. *)
Definition add_hybrid_result (normalized_vector_scores normalized_bm25_scores
    bm25_scores_subset : list Q) (hybrid_results : loc) (i : nat) (result : loc) : M unit :=
  nv ← lift (Py.index normalized_vector_scores i);
  nb ← lift (Py.index normalized_bm25_scores i);
  let hybrid_score := (ALPHA * nv + (1 - ALPHA) * nb)%Q in
  result_copy ← copy result;
  setitem result_copy "hybrid_score" (VFloat hybrid_score);;
  b ← lift (Py.index bm25_scores_subset i);
  setitem result_copy "bm25_score" (VFloat b);;
  setitem result_copy "normalized_vector_score" (VFloat nv);;
  setitem result_copy "normalized_bm25_score" (VFloat nb);;
  append hybrid_results result_copy.

(** [vector_results] is the address of the list of candidates.  The
    semantic scores are read as numbers, so a score that is not one raises
    [TypeError] where it is read. *)
Definition rerank (self : t) (query : string) (vector_results : loc) : M loc :=
  results ← read_list vector_results;
  match results, bm25 self with
  | [], _ | _, None => mret vector_results
  | _ :: _, Some index =>
      let query_tokens := _tokenize query in
      let bm25_scores := get_scores index query_tokens in
      chunk_id_to_bm25 ← lift (id_to_bm25 (chunk_ids self) bm25_scores);
      vector_scores ←
        mapM (λ result, d ← read_dict result;
                        lift (Py.getitem d "vector_score" ≫= Py.as_num)) results;
      bm25_scores_subset ←
        mapM (λ result, d ← read_dict result;
                        lift (key ← Py.getitem d "id";
                              mret (get_bm25 chunk_id_to_bm25 key))) results;
      let normalized_vector_scores := _normalize_scores vector_scores in
      let normalized_bm25_scores := _normalize_scores bm25_scores_subset in
      hybrid_results ← alloc (OList []);
      for_enum (add_hybrid_result normalized_vector_scores normalized_bm25_scores
                  bm25_scores_subset hybrid_results) 0 results;;
      sort_desc_by hybrid_results
        (λ x, d ← read_dict x; lift (Py.getitem d "hybrid_score" ≫= Py.as_num));;
      mret hybrid_results
  end.
(** [lst[:k]]: a negative [k] counts from the end. *)
Definition slice_to {A} (l : list A) (k : Z) : list A :=
  if (0 <=? k)%Z then take (Z.to_nat k) l
  else take (length l - Z.to_nat (- k)) l.

(** [vector_search] stands for [vector_search.search], the retriever: it
    returns the address of the list of candidates it found. *)
Definition search_with_reranking (self : t) (query : string)
    (vector_search : string → Z → M loc) (k : Z) : M loc :=
  candidates ← vector_search query config.CANDIDATE_K;
  found ← read_list candidates;
  match found with
  | [] => alloc (OList [])
  | _ :: _ =>
      reranked_results ← rerank self query candidates;
      results ← read_list reranked_results;
      alloc (OList (slice_to results k))
  end.

End fusion.

(** The pairs of tokens of which one is a substring of the other, counted
    by the two nested loops of [get_keyword_matches]. *)
Definition partial_matches (query_tokens text_tokens : gset string) : nat :=
  foldl (λ n query_token,
           foldl (λ n text_token,
                    if PyStr.contains query_token text_token
                       || PyStr.contains text_token query_token
                    then S n else n)
                 n (elements text_tokens))
        0%nat (elements query_tokens).

Definition get_keyword_matches (query text : string) : Q :=
  let query_tokens : gset string := list_to_set (_tokenize query) in
  let text_tokens : gset string := list_to_set (_tokenize text) in
  let exact_matches := size (query_tokens ∩ text_tokens) in
  (inject_Z (Z.of_nat exact_matches)
   + inject_Z (Z.of_nat (partial_matches query_tokens text_tokens)) * (1 # 2))%Q.

End HybridReranker.


(** ** Auxiliary notions of the statements and proofs *)

Module Aux.
Import AnswerGenerator Heap.

(** The loop keeps [seen] equal to the set of the parts kept so far. *)
Definition dedup_inv (st : gset string * list string) : Prop :=
  NoDup st.2 ∧ ∀ x, x ∈ st.1 ↔ x ∈ st.2.

(** A text without terminal punctuation. *)
Definition plain (s : string) : Prop :=
  Forall (λ c, PyStr.is_terminal c = false) (list_ascii_of_string s).

(** [cit] and [sents] are the citation and the sentences that the loop of
    [generate_answer] takes from the candidate [c]. *)
Definition contributes (query : string) (c : dict) (cit : citation)
    (sents : list string) : Prop :=
  ∃ chunk_text title u,
    c !! "chunk_text" = Some (VStr chunk_text)
    ∧ c !! "title" = Some title
    ∧ c !! "url" = Some u
    ∧ sents = _extract_relevant_sentences query chunk_text
    ∧ sents ≠ []
    ∧ cit = {| source := title; url := u; score := context_score c;
               text := preview chunk_text |}.

(** *** What [rerank] computes, as functions of the candidates' contents *)

(** The semantic scores and the lexical scores of the candidates [ds]. *)
Definition candidate_scores (self : HybridReranker.t) (index : HybridReranker.BM25Okapi)
    (query : string) (ds : list dict) : res (list Q * list Q) :=
  m ← HybridReranker.id_to_bm25 (HybridReranker.chunk_ids self)
        (HybridReranker.get_scores index (HybridReranker._tokenize query));
  vs ← mapM (λ d : dict, Py.getitem d "vector_score" ≫= Py.as_num) ds;
  bs ← mapM (λ d : dict, key ← Py.getitem d "id";
                         mret (HybridReranker.get_bm25 m key)) ds;
  mret (vs, bs).

Definition at_ (l : list Q) (i : nat) : Q := default 0%Q (l !! i).

Definition hybrid (ALPHA nv nb : Q) : Q := (ALPHA * nv + (1 - ALPHA) * nb)%Q.

(** The copy of the candidate [d] with the four scores set. *)
Definition annotate (d : dict) (hybrid_score b nv nb : Q) : dict :=
  <["normalized_bm25_score" := VFloat nb]>
    (<["normalized_vector_score" := VFloat nv]>
      (<["bm25_score" := VFloat b]>
        (<["hybrid_score" := VFloat hybrid_score]> d))).

Definition fused_record (ALPHA : Q) (nvs nbs bs : list Q) (i : nat) (d : dict) : dict :=
  annotate d (hybrid ALPHA (at_ nvs i) (at_ nbs i)) (at_ bs i) (at_ nvs i) (at_ nbs i).

(** The records of [hybrid_results] before the sort, in the order of the
    candidates, from their semantic scores [vs] and lexical scores [bs]. *)
Definition fused (ALPHA : Q) (vs bs : list Q) (ds : list dict) : list dict :=
  let nvs := HybridReranker._normalize_scores vs in
  let nbs := HybridReranker._normalize_scores bs in
  imap (fused_record ALPHA nvs nbs bs) ds.

Definition hybrid_scores (ALPHA : Q) (vs bs : list Q) : list Q :=
  let nvs := HybridReranker._normalize_scores vs in
  let nbs := HybridReranker._normalize_scores bs in
  imap (λ i _, hybrid ALPHA (at_ nvs i) (at_ nbs i)) vs.

(** [records] in the order a stable descending sort by [keys] gives. *)
Definition rank_by (keys : list Q) (records : list dict) : list dict :=
  (Py.sort_desc Qle_bool (zip records keys)).*1.

(** The number stored under [k] in the record [d]. *)
Definition number (k : string) (d : dict) : option Q :=
  match d !! k with
  | Some (VInt z) => Some (inject_Z z)
  | Some (VFloat q) => Some q
  | _ => None
  end.

(** The keys that [rerank] sets in the copy of a candidate. *)
Definition added_keys : list string :=
  ["hybrid_score"; "bm25_score"; "normalized_vector_score"; "normalized_bm25_score"].

Definition fused_score (d : dict) : Q := default 0%Q (number "hybrid_score" d).

(** The key under which a candidate is looked up is one of the identifiers
    of the lexical index. *)
Definition id_in_index (ids : list Z) (key : value) : Prop :=
  match key with
  | VInt z => z ∈ ids
  | VFloat q => ∃ z, z ∈ ids ∧ (q == inject_Z z)%Q
  | VStr _ => False
  end.

(** A candidate [rerank] can fuse: it carries a semantic score and an
    identifier. *)
Definition well_formed (d : dict) : Prop :=
  is_Some (number "vector_score" d) ∧ is_Some (d !! "id").

#[global] Instance Qeq_decision (x y : Q) : Decision (x == y)%Q := Qeq_dec x y.

(** In a descending list every element is followed by elements of smaller
    or equal key only. *)
Definition descending {A K} (le : K → K → bool) (l : list (A * K)) : Prop :=
  StronglySorted (λ x y, le y.2 x.2 = true) l.

(** *** Notions of the further properties *)

(** A candidate the synthesizer can read: a numeric score, a text, a title
    and a URL. *)
Definition answerable (c : dict) : Prop :=
  (∃ s, Py.as_num (context_score c) = Ok s)
  ∧ (∃ t, c !! "chunk_text" = Some (VStr t))
  ∧ is_Some (c !! "title")
  ∧ is_Some (c !! "url").

(** The entry of the response that [format_response] makes of a candidate. *)
Definition formats (c : dict) (entry : Response.context) : Prop :=
  c !! "chunk_text" = Some (Response.text entry)
  ∧ Response.score entry = context_score c
  ∧ c !! "title" = Some (Response.source entry)
  ∧ c !! "url" = Some (Response.url entry).

(** A token as [_tokenize] makes them: not empty, made of word
    characters, none of them an upper-case letter. *)
Definition token (t : string) : Prop :=
  t ≠ EmptyString
  ∧ Forall (λ c, PyStr.is_word_char c = true ∧ PyStr.between 65 90 c = false)
      (list_ascii_of_string t).

(** One of the two tokens is a substring of the other. *)
Definition related (a b : string) : bool :=
  PyStr.contains a b || PyStr.contains b a.

Definition count_related (la lb : list string) : nat :=
  sum_list_with (λ a, length (filter (λ b, related a b = true) lb)) la.

End Aux.

(** ** Sample data: two candidates that tie on the semantic score *)

Module Scenario.
Import Heap.

Definition candidate (id : Z) (vector_score : Q) : dict :=
  <["id" := VInt id]>
    (<["title" := VStr "ISO 13849-1:2015"]>
      (<["url" := VStr "https://www.iso.org/standard/69883.html"]>
        (<["chunk_text" := VStr "ISO 13849-1 is an international standard. It provides guidance."]>
          (<["vector_score" := VFloat vector_score]> ∅)))).

Definition candidates : list dict := [candidate 10 (9 # 10); candidate 11 (9 # 10)].

(** Two dictionaries and the list that holds them. *)
Definition store : heap :=
  <[3%positive := OList [1%positive; 2%positive]]>
    (<[2%positive := ODict (candidate 11 (9 # 10))]>
      (<[1%positive := ODict (candidate 10 (9 # 10))]> ∅)).

(** An index over the two passages, with lexical scores 0.2 and 0.8. *)
Definition index : HybridReranker.BM25Okapi :=
  {| HybridReranker.get_scores := λ _, [2 # 10; 8 # 10]%Q |}.

Definition reranker : HybridReranker.t :=
  {| HybridReranker.bm25 := Some index;
     HybridReranker.corpus := ["first passage"; "second passage"];
     HybridReranker.chunk_ids := [10%Z; 11%Z] |}.

(** A candidate that the index does not know. *)
Definition stranger : dict := candidate 99 (8 # 10).

Definition store_with_stranger : heap :=
  <[3%positive := OList [1%positive; 2%positive]]>
    (<[2%positive := ODict stranger]>
      (<[1%positive := ODict (candidate 10 (9 # 10))]> ∅)).

End Scenario.

(** ** Sample data: a lone candidate of low semantic score, and a retriever *)

Module Lone.
Import Heap.

Definition candidate : dict := Scenario.candidate 10 (1 # 10).

Definition store : heap :=
  <[2%positive := OList [1%positive]]> (<[1%positive := ODict candidate]> ∅).

(** A retriever that finds the list at address 3 of [Scenario.store]. *)
Definition vector_search (query : string) (k : Z) : M loc :=
  λ _, Ok (3%positive, Scenario.store).

Definition chunks : list (Z * string) :=
  [(10%Z, "first passage"); (11%Z, "second passage")].

(** An index constructor that scores every document 1/2. *)
Definition BM25Okapi_new (corpus : list (list string)) : HybridReranker.BM25Okapi :=
  {| HybridReranker.get_scores := λ _, (λ _, 1 # 2)%Q <$> corpus |}.

(** The candidate without its semantic score, and without its identifier. *)
Definition unscored : dict := delete "vector_score" candidate.
Definition anonymous : dict := delete "id" candidate.

(** The store of a list that holds the one dictionary [d]. *)
Definition store_of (d : dict) : heap :=
  <[2%positive := OList [1%positive]]> (<[1%positive := ODict d]> ∅).

End Lone.

(** * Properties *)

Example format_3f_half : PyNum.format_3f (1 # 2) = "0.500".
Proof. reflexivity. Qed.

Example format_3f_round : PyNum.format_3f (85 # 100) = "0.850"
  ∧ PyNum.format_3f (12345 # 10000) = "1.234"
  ∧ PyNum.format_3f (12355 # 10000) = "1.236"
  ∧ PyNum.format_3f (- 1 # 3) = "-0.333"
  ∧ PyNum.format_3f (2 # 3) = "0.667".
Proof. repeat split; reflexivity. Qed.

Example split_terminal_ex :
  PyStr.split_terminal "a..b?  c." = ["a"; "b"; "  c"; ""]
  ∧ PyStr.split_terminal ".a" = [""; "a"]
  ∧ PyStr.split_terminal "" = [""].
Proof. repeat split; reflexivity. Qed.

Example findall_words_ex :
  PyStr.findall_words (PyStr.lower "What is ISO 13849-1?") = ["what"; "is"; "iso"; "13849"; "1"].
Proof. reflexivity. Qed.

Example strip_ex : PyStr.strip "  a b  " = "a b" ∧ PyStr.strip "   " = "".
Proof. split; reflexivity. Qed.


(** ** Comparisons on rationals *)

Lemma lt_true (x y : Q) : Py.lt x y = true ↔ (x < y)%Q.
Proof.
  unfold Py.lt. rewrite negb_true_iff. split.
  - intros H. apply Qnot_le_lt. intros Hle. apply Qle_bool_iff in Hle. congruence.
  - intros H. destruct (Qle_bool y x) eqn:E; [|done].
    apply Qle_bool_iff in E. exfalso. by apply (Qlt_not_le x y).
Qed.

Lemma lt_false (x y : Q) : Py.lt x y = false ↔ (y <= x)%Q.
Proof.
  unfold Py.lt. rewrite negb_false_iff. apply Qle_bool_iff.
Qed.

(** ** Substrings *)

Lemma str_prefix_nil (s : string) : String.prefix "" s = true.
Proof. by destruct s. Qed.

Lemma prefix_app (n s : string) : String.prefix n (n +:+ s) = true.
Proof.
  induction n as [|a n IH]; [apply str_prefix_nil|].
  change (String a n +:+ s) with (String a (n +:+ s)).
  cbn [String.prefix]. destruct (ascii_dec a a); [apply IH | congruence].
Qed.

Lemma contains_here (n s : string) : PyStr.contains n (n +:+ s) = true.
Proof.
  pose proof (prefix_app n s) as H.
  destruct (n +:+ s); cbn [PyStr.contains]; by rewrite H.
Qed.

Lemma contains_app (a n s : string) : PyStr.contains n (a +:+ n +:+ s) = true.
Proof.
  induction a as [|c a IH].
  - change (PyStr.contains n (n +:+ s) = true). apply contains_here.
  - change (PyStr.contains n (String c (a +:+ n +:+ s)) = true).
    cbn [PyStr.contains]. rewrite IH. apply orb_true_r.
Qed.

Lemma append_assoc (a b c : string) : (a +:+ b) +:+ c = a +:+ b +:+ c.
Proof.
  induction a as [|x a IH]; [done|].
  change (String x ((a +:+ b) +:+ c) = String x (a +:+ b +:+ c)). by rewrite IH.
Qed.

(** ** Removing duplicate sentences *)

Section dedup.
Import AnswerGenerator Aux.

Lemma dedup_step_inv st part : dedup_inv st → dedup_inv (dedup_step st part).
Proof.
  intros [Hnd Hseen]. unfold dedup_step. case_decide as Hin; [done|].
  split; simpl.
  - apply NoDup_app. split_and!; [done| |apply NoDup_singleton].
    intros x Hx ->%list_elem_of_singleton. apply Hin, Hseen, Hx.
  - intros x. rewrite elem_of_union, elem_of_singleton, elem_of_app,
      list_elem_of_singleton, Hseen. tauto.
Qed.

Lemma dedup_fold_inv l st : dedup_inv st → dedup_inv (foldl dedup_step st l).
Proof.
  revert st. induction l as [|p l IH]; intros st Hst; simpl; [done|].
  by apply IH, dedup_step_inv.
Qed.

Lemma dedup_fold_elem l st x :
  dedup_inv st → x ∈ (foldl dedup_step st l).2 ↔ x ∈ st.2 ∨ x ∈ l.
Proof.
  revert st. induction l as [|p l IH]; intros st Hst; simpl.
  - rewrite elem_of_nil. tauto.
  - rewrite IH by by apply dedup_step_inv.
    rewrite elem_of_cons. unfold dedup_step. case_decide as Hin; simpl.
    + destruct Hst as [_ Hseen]. apply Hseen in Hin. split; [tauto|].
      intros [?|[->|?]]; tauto.
    + rewrite elem_of_app, list_elem_of_singleton. tauto.
Qed.

(** On parts that are new and pairwise distinct the loop appends them all. *)
Lemma dedup_fold_nodup l st :
  dedup_inv st → NoDup (st.2 ++ l) → (foldl dedup_step st l).2 = st.2 ++ l.
Proof.
  revert st. induction l as [|p l IH]; intros st Hst Hnd; simpl.
  - by rewrite app_nil_r.
  - assert (p ∉ st.1) as Hp.
    { intros Hin. apply Hst in Hin. apply NoDup_app in Hnd as (_ & Hd & _).
      apply (Hd p Hin). left. }
    assert (dedup_step st p = ({[p]} ∪ st.1, st.2 ++ [p])) as Hstep.
    { unfold dedup_step. by case_decide. }
    rewrite IH.
    + rewrite Hstep. simpl. by rewrite <- app_assoc.
    + by apply dedup_step_inv.
    + rewrite Hstep. simpl. by rewrite <- app_assoc.
Qed.

Lemma dedup_inv_init : dedup_inv (∅, []).
Proof. split; simpl; [apply NoDup_nil_2|]. intros x. rewrite elem_of_nil. set_solver. Qed.

Lemma unique_parts_NoDup parts : NoDup (unique_parts parts).
Proof. apply (dedup_fold_inv parts (∅, [])), dedup_inv_init. Qed.

Lemma unique_parts_elem parts x : x ∈ unique_parts parts ↔ x ∈ parts.
Proof.
  unfold unique_parts. rewrite dedup_fold_elem by apply dedup_inv_init.
  simpl. rewrite elem_of_nil. tauto.
Qed.

Lemma unique_parts_id parts : NoDup parts → unique_parts parts = parts.
Proof.
  intros Hnd. unfold unique_parts.
  by rewrite dedup_fold_nodup by (done || apply dedup_inv_init).
Qed.

(** C9. Removing duplicate sentences (exact match, first occurrence kept)
    is idempotent: a list without duplicates is returned unchanged, and so
    is the result of a first removal when it is run a second time. *)
Theorem C9_dedup_idempotent (answer_parts : list string) :
  (NoDup answer_parts → unique_parts answer_parts = answer_parts)
  ∧ NoDup (unique_parts answer_parts)
  ∧ unique_parts (unique_parts answer_parts) = unique_parts answer_parts.
Proof.
  split_and!.
  - apply unique_parts_id.
  - apply unique_parts_NoDup.
  - apply unique_parts_id, unique_parts_NoDup.
Qed.

End dedup.


(** ** The confidence gate *)

Section gate.
Import AnswerGenerator.
Variable str_float : Q → string.

Lemma generate_answer_cons self query first rest ru top :
  Py.as_num (context_score first) = Ok top →
  generate_answer str_float self query (first :: rest) ru =
    if Py.lt top (threshold self) then Ok (None, gate_reason str_float self top)
    else synthesize str_float self query (first :: rest) top.
Proof. intros H. cbn. by rewrite H. Qed.

Lemma gate_reason_head self top :
  ∃ s, gate_reason str_float self top = String "T" s.
Proof. by eexists. Qed.

Lemma synthesize_not_gate self query contexts top top' :
  synthesize str_float self query contexts top ≠ Ok (None, gate_reason str_float self top').
Proof.
  unfold synthesize. destruct (collect self query contexts) as [[parts cits]|e];
    cbn; [|done].
  destruct (gate_reason_head self top') as [s ->].
  destruct parts; discriminate.
Qed.

(** C1. On a non-empty candidate list the top score is the fused score of
    the first candidate when it has one, else its semantic score (else 0).
    The synthesizer abstains at the confidence gate, with a null answer and
    the gate's reason, exactly when the top score is below the threshold: a
    top score equal to the threshold passes the gate and goes on to the
    extraction, a top score of threshold - ε does not.  The reason of the
    abstention contains the top score with three decimals and the
    threshold. *)
Theorem C1_confidence_gate self query first rest ru top :
  Py.as_num (context_score first) = Ok top →
  let result := generate_answer str_float self query (first :: rest) ru in
  let reason := gate_reason str_float self top in
  context_score first =
    match first !! "hybrid_score" with
    | Some fused => fused
    | None => default (VInt 0) (first !! "vector_score")
    end
  ∧ (result = Ok (None, reason) ↔ (top < threshold self)%Q)
  ∧ ((threshold self <= top)%Q →
       result = synthesize str_float self query (first :: rest) top)
  ∧ ((top == threshold self)%Q →
       result = synthesize str_float self query (first :: rest) top
       ∧ result ≠ Ok (None, reason))
  ∧ (∀ ε : Q, (0 < ε)%Q → (top == threshold self - ε)%Q → result = Ok (None, reason))
  ∧ PyStr.contains (PyNum.format_3f top) reason = true
  ∧ PyStr.contains (str_float (threshold self)) reason = true.
Proof.
  intros Htop result reason. subst result reason.
  rewrite (generate_answer_cons _ _ _ _ _ _ Htop).
  split_and!.
  - unfold context_score, Py.get. by destruct (first !! "hybrid_score").
  - destruct (Py.lt top (threshold self)) eqn:E.
    + apply lt_true in E. tauto.
    + apply lt_false in E. split.
      * intros H. by apply synthesize_not_gate in H.
      * intros H. exfalso. by apply (Qlt_not_le _ _ H).
  - intros Hle. apply lt_false in Hle. by rewrite Hle.
  - intros Heq.
    assert (Py.lt top (threshold self) = false) as ->.
    { apply lt_false. rewrite Heq. apply Qle_refl. }
    split; [done | apply synthesize_not_gate].
  - intros ε Hε Heq.
    assert (Py.lt top (threshold self) = true) as ->; [|done].
    apply lt_true. rewrite Heq.
    rewrite <- (Qplus_0_r (threshold self)) at 2.
    unfold Qminus. apply Qplus_lt_r.
    apply (Qplus_lt_l _ _ ε). ring_simplify. done.
  - unfold gate_reason. apply contains_app.
  - unfold gate_reason.
    rewrite <- (append_assoc "Top result score (").
    rewrite <- (append_assoc _ ") below confidence threshold (").
    apply contains_app.
Qed.

(** C6 (as amended). On the empty candidate list the synthesizer returns at
    once the null answer, and its reason is "No relevant contexts found". *)
Theorem C6_empty_candidates self query ru :
  generate_answer str_float self query [] ru = Ok (None, "No relevant contexts found").
Proof. reflexivity. Qed.

End gate.

(** The candidate of the repository's own scenario: semantic score 0.5
    against the threshold 0.7. *)
Lemma C1_witness :
  let first : dict := <["vector_score" := VFloat (1 # 2)]> ∅ in
  AnswerGenerator.generate_answer (λ _, "0.7") AnswerGenerator.init "q" [first] false
    = Ok (None, "Top result score (0.500) below confidence threshold (0.7)").
Proof.
  intros first.
  pose proof (C1_confidence_gate (λ _, "0.7") AnswerGenerator.init "q" first [] false (1 # 2)
                eq_refl) as (_ & Hgate & _).
  apply Hgate. reflexivity.
Defined.

(** C6, as the claim words it: the reason is not the text "no candidates". *)
Lemma C6_counterexample :
  AnswerGenerator.generate_answer (λ _, "0.7") AnswerGenerator.init "What is ISO 13849-1?" [] false
    ≠ Ok (None, "no candidates").
Proof. discriminate. Qed.

(** ** The stable descending sort *)

Section sort_desc.
Context {A K : Type} (le : K → K → bool).
Implicit Types (x y : A * K) (l : list (A * K)).

Hypothesis le_total : ∀ a b, le a b = false → le b a = true.
Hypothesis le_trans : ∀ a b c, le a b = true → le b c = true → le a c = true.

Lemma insert_desc_perm x l : Py.insert_desc le x l ≡ₚ x :: l.
Proof.
  induction l as [|y l IH]; simpl; [done|].
  destruct (le y.2 x.2); [done|]. rewrite IH. apply Permutation_swap.
Qed.

Lemma sort_desc_perm l : Py.sort_desc le l ≡ₚ l.
Proof.
  induction l as [|x l IH]; simpl; [done|].
  by rewrite insert_desc_perm, IH.
Qed.

Lemma insert_desc_descending x l :
  Aux.descending le l → Aux.descending le (Py.insert_desc le x l).
Proof.
  unfold Aux.descending. induction 1 as [|y l Hl IH Hy]; simpl.
  - repeat constructor.
  - destruct (le y.2 x.2) eqn:E.
    + constructor; [by constructor|]. constructor; [exact E|].
      eapply Forall_impl; [exact Hy|]. intros z Hz. simpl in *. by eapply le_trans.
    + constructor; [done|].
      rewrite insert_desc_perm. constructor; [|done]. by apply le_total.
  Qed.

Lemma sort_desc_descending l : Aux.descending le (Py.sort_desc le l).
Proof.
  induction l as [|x l IH]; simpl; [constructor|].
  by apply insert_desc_descending.
Qed.

(** Insertion puts [x] in front of the elements it ties with. *)
Lemma filter_insert_desc (P : A * K → Prop) `{∀ x, Decision (P x)} x l :
  (∀ y, y ∈ l → P y → P x → le y.2 x.2 = true) →
  filter P (Py.insert_desc le x l) = filter P (x :: l).
Proof.
  induction l as [|y l IH]; intros Hle; simpl; [done|].
  destruct (le y.2 x.2) eqn:E; [done|].
  rewrite filter_cons, IH by (intros z Hz; apply Hle; by right).
  rewrite !filter_cons. repeat case_decide; try done.
  rewrite Hle in E; [done|left|done|done].
Qed.

Lemma filter_sort_desc (P : A * K → Prop) `{∀ x, Decision (P x)} l :
  (∀ x y, x ∈ l → y ∈ l → P x → P y → le y.2 x.2 = true) →
  filter P (Py.sort_desc le l) = filter P l.
Proof.
  induction l as [|x l IH]; intros HP; simpl; [done|].
  rewrite filter_insert_desc.
  - rewrite !filter_cons, IH; [done|]. intros y z Hy Hz. apply HP; by right.
  - intros y Hy HPy HPx. apply (HP x y); [left| |done|done]. right.
    by apply (elem_of_Permutation_proper y _ _ (sort_desc_perm l)) in Hy.
Qed.

End sort_desc.

Lemma sort_desc_cons {A K} (le : K → K → bool) (x : A * K) l :
  Py.sort_desc le (x :: l) = Py.insert_desc le x (Py.sort_desc le l).
Proof. reflexivity. Qed.

(** The sort only looks at the outcome of the comparisons. *)
Lemma sort_desc_map {A B K K'} (le : K → K → bool) (le' : K' → K' → bool)
    (f : A * K → B * K') (l : list (A * K)) :
  (∀ x y, x ∈ l → y ∈ l → le' (f x).2 (f y).2 = le x.2 y.2) →
  f <$> Py.sort_desc le l = Py.sort_desc le' (f <$> l).
Proof.
  induction l as [|x l IH]; intros Hf; [done|].
  rewrite fmap_cons, !sort_desc_cons.
  rewrite <- IH by (intros; apply Hf; by right).
  assert (∀ s, s ⊆ l →
    f <$> Py.insert_desc le x s = Py.insert_desc le' (f x) (f <$> s)) as Hins.
  { induction s as [|y s IHs]; intros Hs; simpl; [done|].
    rewrite Hf; [|right; apply Hs; left|left].
    destruct (le y.2 x.2); [done|].
    rewrite fmap_cons, IHs; [done|]. intros z Hz. apply Hs. by right. }
  apply Hins. intros z Hz.
  by apply (elem_of_Permutation_proper z _ _ (sort_desc_perm le l)) in Hz.
Qed.

Lemma StronglySorted_weaken {A} (R R' : A → A → Prop) (l : list A) :
  (∀ x y, R x y → R' x y) → StronglySorted R l → StronglySorted R' l.
Proof.
  intros HR. induction 1 as [|x l _ IH Hx]; constructor; [done|].
  eapply Forall_impl; [exact Hx|]. intros y. apply HR.
Qed.

(** ** Sentence extraction *)

Lemma filter_take_prefix {A} (P : A → Prop) `{∀ x, Decision (P x)} (l : list A) n :
  filter P (take n l) `prefix_of` take n (filter P l).
Proof.
  revert n. induction l as [|x l IH]; intros n.
  { rewrite take_nil. apply prefix_nil. }
  destruct n as [|n]; [apply prefix_nil|].
  rewrite firstn_cons, !filter_cons. case_decide.
  - rewrite firstn_cons. apply prefix_cons, IH.
  - etrans; [apply IH|]. destruct (filter P l) as [|y k]; [by destruct n|].
    replace (take n (y :: k)) with (take n (take (S n) (y :: k)))
      by (rewrite take_take; f_equal; lia).
    apply prefix_take.
Qed.

Lemma leb_total (a b : nat) : Nat.leb a b = false → Nat.leb b a = true.
Proof. rewrite Nat.leb_gt, Nat.leb_le. lia. Qed.

Lemma leb_trans (a b c : nat) : Nat.leb a b = true → Nat.leb b c = true → Nat.leb a c = true.
Proof. rewrite !Nat.leb_le. lia. Qed.

Section extraction.
Import AnswerGenerator.

Lemma chars_app (a b : string) : list_ascii_of_string (a +:+ b) = list_ascii_of_string a ++ list_ascii_of_string b.
Proof.
  induction a as [|x a IH]; [done|].
  change (x :: list_ascii_of_string (a +:+ b) = x :: list_ascii_of_string a ++ list_ascii_of_string b). by rewrite IH.
Qed.

Lemma split_terminal_from_plain (s cur : string) (in_sep : bool) :
  Aux.plain cur →
  Forall (λ p, Aux.plain p) (PyStr.split_terminal_from cur in_sep s).
Proof.
  unfold Aux.plain.
  revert cur in_sep. induction s as [|c s IH]; intros cur in_sep Hcur; simpl.
  - by constructor.
  - destruct (PyStr.is_terminal c) eqn:E.
    + destruct in_sep; [by apply IH|]. constructor; [done|]. apply IH. constructor.
    + apply IH. unfold PyStr.snoc. rewrite chars_app. apply Forall_app.
      split; [done|]. by repeat constructor.
Qed.

Lemma lstrip_plain (s : string) : Aux.plain s → Aux.plain (PyStr.lstrip s).
Proof.
  unfold Aux.plain. induction s as [|c s IH]; intros Hs; simpl; [done|].
  destruct (PyStr.is_space c); [|done]. apply IH. by apply Forall_cons in Hs as [_ ?].
Qed.

Lemma rev_plain (s : string) : Aux.plain s → Aux.plain (PyStr.rev s).
Proof.
  unfold Aux.plain. intros Hs. unfold PyStr.rev. rewrite list_ascii_of_string_of_list_ascii.
  by apply Forall_rev.
Qed.

Lemma strip_plain (s : string) : Aux.plain s → Aux.plain (PyStr.strip s).
Proof.
  intros Hs. unfold PyStr.strip, PyStr.rstrip.
  by apply rev_plain, lstrip_plain, rev_plain, lstrip_plain.
Qed.

(** A sentence is not empty and holds no terminal punctuation. *)
Lemma sentences_of_plain (text : string) :
  Forall (λ s, s ≠ "" ∧ Aux.plain s) (sentences_of text).
Proof.
  unfold sentences_of. apply Forall_fmap, Forall_forall.
  intros s [Hs Hin]%list_elem_of_filter. simpl. split.
  - intros Heq. by rewrite Heq in Hs.
  - apply strip_plain.
    pose proof (split_terminal_from_plain text "" false (Forall_nil_2 _)) as Hall.
    rewrite Forall_forall in Hall. by apply Hall.
Qed.

Lemma qualifies_true x :
  qualifies x = true ↔ (0 < x.2)%nat ∧ (20 < String.length x.1)%nat.
Proof. unfold qualifies. rewrite andb_true_iff, !Nat.ltb_lt. done. Qed.

Lemma filter_qualifies_zero (l : list (string * nat)) :
  Forall (λ x, x.2 = 0) l → filter (λ x, qualifies x = true) l = [].
Proof.
  induction 1 as [|x l Hx _ IH]; [done|].
  rewrite filter_cons, IH. case_decide as Hq; [|done].
  apply qualifies_true in Hq. lia.
Qed.

(** Behind a sentence without overlap a ranked list has no overlap at all. *)
Lemma descending_zero (x : string * nat) l :
  Aux.descending Nat.leb (x :: l) → x.2 = 0 → Forall (λ y, y.2 = 0) l.
Proof.
  intros Hs Hx. apply StronglySorted_inv in Hs as [_ Hall].
  eapply Forall_impl; [exact Hall|]. intros y Hy. simpl in Hy.
  apply Nat.leb_le in Hy. lia.
Qed.

Lemma cap_then_filter (l : list (string * nat)) :
  Aux.descending Nat.leb l →
  Forall (λ x : string * nat, (0 < x.2 → 20 < String.length x.1)%nat) (take 2 l) →
  filter (λ x, qualifies x = true) (take 2 l) = take 2 (filter (λ x, qualifies x = true) l).
Proof.
  intros Hs Hlong. destruct l as [|a [|b l]]; [done| |].
  - simpl. rewrite !filter_cons, filter_nil. by case_decide.
  - apply Forall_cons in Hlong as [Ha Hlong]. apply Forall_cons in Hlong as [Hb _].
    change (take 2 (a :: b :: l)) with [a; b].
    destruct (decide (a.2 = 0)) as [Ha0|Ha0].
    { pose proof (descending_zero _ _ Hs Ha0) as Hz.
      assert (Forall (λ x : string * nat, x.2 = 0) (a :: b :: l)) as Hall
        by by constructor.
      rewrite (filter_qualifies_zero _ Hall).
      apply filter_qualifies_zero. apply Forall_cons in Hz as [Hb0 _].
      by repeat constructor. }
    assert (qualifies a = true) as Hqa by (apply qualifies_true; lia).
    apply StronglySorted_inv in Hs as [Hs _].
    rewrite (filter_cons_True (λ x : string * nat, qualifies x = true) a [b]), (filter_cons_True (λ x : string * nat, qualifies x = true) a (b :: l)) by done.
    destruct (decide (b.2 = 0)) as [Hb0|Hb0].
    { pose proof (descending_zero _ _ Hs Hb0) as Hz.
      assert (Forall (λ x : string * nat, x.2 = 0) (b :: l)) as Hall
        by by constructor.
      rewrite (filter_qualifies_zero _ Hall).
      rewrite (filter_qualifies_zero [b]); [done|]. by repeat constructor. }
    assert (qualifies b = true) as Hqb by (apply qualifies_true; lia).
    rewrite (filter_cons_True (λ x : string * nat, qualifies x = true) b []), (filter_cons_True (λ x : string * nat, qualifies x = true) b l) by done.
    done.
Qed.

(** C3 (as amended). The text is cut into sentences at terminal
    punctuation (a sentence is not empty and holds none); every sentence is scored by the number of words it shares
    with the query; the sentences are ranked by this overlap, descending,
    ties in text order.  The result is made of the two first ranked
    sentences, of which those with overlap > 0 and more than 20 characters
    are kept: at most 2 sentences, a prefix of the selection the
    specification words, and equal to it when none of the two first ranked
    sentences has a positive overlap and 20 characters or less. *)
Theorem C3_extract_relevant_sentences (query text : string) :
  let scored := scored_sentences query text in
  let ranked := Py.sort_desc Nat.leb scored in
  let result := _extract_relevant_sentences query text in
  Forall (λ s, s ≠ "" ∧ Aux.plain s) (sentences_of text)
  ∧ scored = (λ s, (s, size (words query ∩ words s))) <$> sentences_of text
  ∧ ranked ≡ₚ scored
  ∧ StronglySorted (λ x y : string * nat, (y.2 ≤ x.2)%nat) ranked
  ∧ (∀ n : nat, filter (λ x : string * nat, x.2 = n) ranked
              = filter (λ x : string * nat, x.2 = n) scored)
  ∧ result = fst <$> filter (λ x, qualifies x = true) (take 2 ranked)
  ∧ (∀ s, s ∈ result →
       ∃ n : nat, (s, n) ∈ take 2 ranked ∧ (0 < n)%nat ∧ (20 < String.length s)%nat)
  ∧ (length result ≤ 2)%nat
  ∧ result `prefix_of` extract_as_specified query text
  ∧ (Forall (λ x : string * nat, (0 < x.2 → 20 < String.length x.1)%nat) (take 2 ranked) →
       result = extract_as_specified query text).
Proof.
  intros scored ranked result.
  assert (Aux.descending Nat.leb ranked) as Hdesc
    by apply (sort_desc_descending _ leb_total leb_trans).
  split_and!.
  - apply sentences_of_plain.
  - done.
  - apply sort_desc_perm.
  - eapply StronglySorted_weaken; [|exact Hdesc]. intros x y H. by apply Nat.leb_le.
  - intros n. apply filter_sort_desc. intros x y _ _ -> ->. apply Nat.leb_refl.
  - done.
  - intros s Hs. unfold result, _extract_relevant_sentences in Hs.
    apply list_elem_of_fmap in Hs as ([s' n] & -> & Hin).
    apply list_elem_of_filter in Hin as [Hq Hin]. apply qualifies_true in Hq.
    exists n. done.
  - unfold result, _extract_relevant_sentences. rewrite length_fmap.
    etrans; [apply length_filter|]. rewrite length_take. lia.
  - unfold result, _extract_relevant_sentences, extract_as_specified.
    destruct (filter_take_prefix (λ x, qualifies x = true) ranked 2) as [k Hk].
    fold scored. fold ranked. rewrite Hk, fmap_app. by eexists.
  - intros Hlong. unfold result, _extract_relevant_sentences, extract_as_specified.
    fold scored. fold ranked. by rewrite cap_then_filter.
Qed.

End extraction.

(** C3, as the claim words it: the first ranked sentence is short, so it
    is dropped, and the third one, which has overlap 1 and 30 characters,
    is not returned although only one sentence is. *)
Lemma C3_counterexample :
  let query := "ISO safety" in
  let text := "ISO safety. ISO is an international standard. ISO gives guidance on design." in
  AnswerGenerator.scored_sentences query text =
    [("ISO safety", 2); ("ISO is an international standard", 1);
     ("ISO gives guidance on design", 1)]
  ∧ AnswerGenerator.qualifies ("ISO gives guidance on design", 1) = true
  ∧ AnswerGenerator._extract_relevant_sentences query text =
      ["ISO is an international standard"]
  ∧ AnswerGenerator.extract_as_specified query text =
      ["ISO is an international standard"; "ISO gives guidance on design"].
Proof. vm_compute. done. Qed.

(** ** Citations *)

Section citations.
Import AnswerGenerator Aux.
Variable str_float : Q → string.

Lemma getitem_Ok (d : dict) k v : Py.getitem d k = Ok v ↔ d !! k = Some v.
Proof. unfold Py.getitem. destruct (d !! k); split; congruence. Qed.

Lemma as_str_Ok v s : Py.as_str v = Ok s ↔ v = VStr s.
Proof. destruct v; simpl; split; congruence. Qed.

(** One pass of the loop either leaves its state or adds the sentences and
    the citation of the candidate. *)
Lemma visit_Ok self query st c st' :
  visit self query st c = Ok st' →
  st' = st ∨
  ∃ cit sents, contributes query c cit sents ∧ st' = (st.1 ++ sents, st.2 ++ [cit]).
Proof.
  unfold visit. destruct (Py.as_num (context_score c)) as [s|]; cbn; [|done].
  destruct (Py.lt s _); [left; congruence|].
  destruct (Py.getitem c "chunk_text") as [v|] eqn:Ht; cbn; [|done].
  destruct (Py.as_str v) as [chunk_text|] eqn:Hs; cbn; [|done].
  apply as_str_Ok in Hs as ->. apply getitem_Ok in Ht.
  destruct (_extract_relevant_sentences query chunk_text) as [|s1 sents] eqn:He;
    [left; congruence|].
  destruct (Py.getitem c "title") as [title|] eqn:Hti; cbn; [|done].
  destruct (Py.getitem c "url") as [u|] eqn:Hu; cbn; [|done].
  apply getitem_Ok in Hti, Hu. intros [= <-]. right.
  eexists _, _. split; [|done].
  exists chunk_text, title, u. rewrite He. done.
Qed.

Lemma StronglySorted_lt_S (l : list nat) :
  StronglySorted lt l → StronglySorted lt (0%nat :: (S <$> l)) .
Proof.
  intros Hl. constructor.
  - induction Hl as [|x l _ IH Hx]; [constructor|].
    rewrite fmap_cons. constructor; [done|].
    apply Forall_fmap. eapply Forall_impl; [exact Hx|]. intros y ?. simpl. lia.
  - apply Forall_fmap, Forall_true. intros x. simpl. lia.
Qed.

Lemma for_each_visit self query (l : list dict) : ∀ st st',
  Py.for_each (visit self query) l st = Ok st' →
  ∃ picks : list (nat * (citation * list string)),
    st'.1 = st.1 ++ concat picks.*2.*2
    ∧ st'.2 = st.2 ++ picks.*2.*1
    ∧ StronglySorted lt picks.*1
    ∧ Forall (λ p, ∃ c, l !! p.1 = Some c ∧ contributes query c p.2.1 p.2.2) picks.
Proof.
  induction l as [|c l IH]; intros st st'; cbn.
  - intros [= <-]. exists []. rewrite !app_nil_r. repeat split; constructor.
  - destruct (visit self query st c) as [st1|] eqn:Hv; cbn; [|done].
    intros Hrest. apply IH in Hrest as (picks & Hp & Hc & Hs & Hall).
    assert (Forall (λ p : nat * (citation * list string),
              ∃ c0, (c :: l) !! p.1 = Some c0 ∧ contributes query c0 p.2.1 p.2.2)
              (prod_map S id <$> picks)) as Hall'.
    { apply Forall_fmap. eapply Forall_impl; [exact Hall|]. by intros [i p]. }
    assert ((prod_map S id <$> picks).*1 = S <$> picks.*1) as Hidx.
    { rewrite <- !list_fmap_compose. by apply list_fmap_ext. }
    assert ((prod_map S id <$> picks).*2 = picks.*2) as Hsnd.
    { rewrite <- !list_fmap_compose. by apply list_fmap_ext. }
    apply visit_Ok in Hv as [->|(cit & sents & Hcon & ->)].
    + exists (prod_map S id <$> picks). rewrite Hidx, Hsnd. split_and!; try done.
      apply StronglySorted_lt_S in Hs. by apply StronglySorted_inv in Hs as [? _].
    + exists ((0%nat, (cit, sents)) :: (prod_map S id <$> picks)).
      rewrite !fmap_cons, Hidx, Hsnd. simpl in *. split_and!.
      * by rewrite Hp, <- app_assoc.
      * by rewrite Hc, <- app_assoc.
      * by apply StronglySorted_lt_S.
      * constructor; [|done]. by exists c.
Qed.

Lemma StronglySorted_lt_NoDup (l : list nat) : StronglySorted lt l → NoDup l.
Proof.
  induction 1 as [|x l _ IH Hx]; constructor; [|done].
  intros Hin. rewrite Forall_forall in Hx. specialize (Hx _ Hin). lia.
Qed.

Lemma collect_Ok self query contexts parts cits :
  collect self query contexts = Ok (parts, cits) →
  ∃ picks : list (nat * (citation * list string)),
    parts = concat picks.*2.*2
    ∧ cits = picks.*2.*1
    ∧ StronglySorted lt picks.*1
    ∧ Forall (λ p, (p.1 < 3)%nat ∧ ∃ c, contexts !! p.1 = Some c
                ∧ contributes query c p.2.1 p.2.2) picks.
Proof.
  intros (picks & Hp & Hc & Hs & Hall)%for_each_visit. exists picks.
  simpl in *. split_and!; try done.
  eapply Forall_impl; [exact Hall|]. intros p (c & Hl & Hcon).
  apply lookup_take_Some in Hl as [Hl Hlt]. eauto.
Qed.

(** C2. When the synthesizer returns an answer, its citation block lists,
    numbered from 1, the citations of candidates taken at strictly
    increasing positions among the three first ones (so no candidate is
    cited twice); each cited candidate gave at least one extracted sentence,
    and that sentence is in the deduplicated text of the answer; and the
    text is made of the sentences of the cited candidates only. *)
Theorem C2_citation_integrity self query contexts ru answer reason :
  generate_answer str_float self query contexts ru = Ok (Some answer, reason) →
  ∃ picks : list (nat * (citation * list string)),
    let citations := picks.*2.*1 in
    let answer_parts := concat picks.*2.*2 in
    picks ≠ []
    ∧ answer = PyStr.join " " (unique_parts answer_parts) +:+ nl +:+ nl +:+
               "Sources: " +:+ PyStr.join ", " (imap (citation_ref str_float) citations)
    ∧ StronglySorted lt picks.*1
    ∧ NoDup picks.*1
    ∧ Forall (λ p, (p.1 < 3)%nat
                ∧ ∃ c, contexts !! p.1 = Some c
                  ∧ contributes query c p.2.1 p.2.2
                  ∧ ∃ s, s ∈ p.2.2 ∧ s ∈ unique_parts answer_parts) picks.
Proof.
  destruct contexts as [|first rest]; [done|].
  destruct (Py.as_num (context_score first)) as [top|] eqn:Htop;
    [|by cbn; rewrite Htop].
  rewrite (generate_answer_cons _ _ _ _ _ _ _ Htop).
  destruct (Py.lt top (threshold self)); [done|].
  unfold synthesize.
  destruct (collect self query (first :: rest)) as [[parts cits]|] eqn:Hcol; [|done].
  cbn -[collect].
  apply collect_Ok in Hcol as (picks & -> & -> & Hs & Hall).
  cbn. destruct (concat picks.*2.*2) as [|s0 parts] eqn:Hparts; [done|].
  intros [= <- _]. exists picks.
  assert (picks ≠ []) as Hne by (by intros ->).
  split_and!; try done.
  - unfold _combine_answer_parts. rewrite Hparts.
    destruct picks as [|p picks]; [done|]. by rewrite !fmap_cons.
  - by apply StronglySorted_lt_NoDup.
  - rewrite Forall_forall in Hall. apply Forall_forall. intros p Hp.
    destruct (Hall p Hp) as (Hlt & c & Hc & Hcon). split; [done|].
    exists c. split_and!; try done.
    destruct Hcon as (? & ? & ? & _ & _ & _ & Hsents & Hnil & _).
    destruct p.2.2 as [|s sents] eqn:E; [done|]. exists s. split; [left|].
    apply unique_parts_elem.
    apply list_elem_of_In, in_concat. exists (s :: sents).
    split; [|by left]. apply list_elem_of_In.
    rewrite <- E. apply list_elem_of_fmap. exists p.2. split; [done|].
    apply list_elem_of_fmap. by exists p.
Qed.

End citations.

(** The repository's own scenario: one candidate of semantic score 0.85. *)
Lemma C2_witness :
  let context : dict :=
    <["chunk_text" := VStr "ISO 13849-1 is an international standard. It provides guidance."]>
    (<["title" := VStr "ISO 13849-1:2015"]>
    (<["url" := VStr "https://www.iso.org/standard/69883.html"]>
    (<["vector_score" := VFloat (85 # 100)]> ∅))) in
  ∃ picks : list (nat * (AnswerGenerator.citation * list string)),
    picks ≠ [] ∧ NoDup picks.*1
    ∧ Forall (λ p, ∃ c, [context] !! p.1 = Some c
                ∧ Aux.contributes "What is ISO 13849-1?" c p.2.1 p.2.2) picks.
Proof.
  intros context.
  destruct (C2_citation_integrity (λ _, "0.7") AnswerGenerator.init
              "What is ISO 13849-1?" [context] false
              ("ISO 13849-1 is an international standard" +:+ AnswerGenerator.nl +:+
               AnswerGenerator.nl +:+ "Sources: [1] ISO 13849-1:2015")
              "Answer generated from 1 sources with top score 0.850")
    as (picks & Hne & _ & _ & Hnd & Hall).
  - vm_compute. reflexivity.
  - exists picks. split_and!; [done|done|].
    eapply Forall_impl; [exact Hall|]. intros p (_ & c & ? & ? & _). eauto.
Defined.

(** ** Min-max normalization *)

Section normalize.
Import HybridReranker.
Open Scope Q_scope.

Lemma py_min_spec (x : Q) (l : list Q) :
  py_min x l ∈ x :: l ∧ ∀ y, y ∈ x :: l → py_min x l <= y.
Proof.
  unfold py_min. revert x. induction l as [|z l IH]; intros x; simpl.
  - split; [left|]. intros y ->%list_elem_of_singleton. apply Qle_refl.
  - destruct (Py.lt z x) eqn:E.
    + destruct (IH z) as [Hin Hle]. split; [by right|].
      intros y [->|Hy]%elem_of_cons; [|by apply Hle].
      apply lt_true in E. eapply Qle_trans; [apply Hle; left|]. by apply Qlt_le_weak.
    + destruct (IH x) as [Hin Hle]. split.
      * apply elem_of_cons in Hin as [->|Hin]; [left|do 2 right; done].
      * intros y [->|[->|Hy]%elem_of_cons]%elem_of_cons.
        -- apply Hle. left.
        -- apply lt_false in E. eapply Qle_trans; [apply Hle; left|done].
        -- apply Hle. by right.
Qed.

Lemma py_max_spec (x : Q) (l : list Q) :
  py_max x l ∈ x :: l ∧ ∀ y, y ∈ x :: l → y <= py_max x l.
Proof.
  unfold py_max. revert x. induction l as [|z l IH]; intros x; simpl.
  - split; [left|]. intros y ->%list_elem_of_singleton. apply Qle_refl.
  - destruct (Py.lt x z) eqn:E.
    + destruct (IH z) as [Hin Hle]. split; [by right|].
      intros y [->|Hy]%elem_of_cons; [|by apply Hle].
      apply lt_true in E. eapply Qle_trans; [|apply Hle; left]. by apply Qlt_le_weak.
    + destruct (IH x) as [Hin Hle]. split.
      * apply elem_of_cons in Hin as [->|Hin]; [left|do 2 right; done].
      * intros y [->|[->|Hy]%elem_of_cons]%elem_of_cons.
        -- apply Hle. left.
        -- apply lt_false in E. eapply Qle_trans; [done|apply Hle; left].
        -- apply Hle. by right.
Qed.

Lemma normalize_cons (x : Q) (l : list Q) :
  _normalize_scores (x :: l) =
    if Qeq_bool (py_max x l) (py_min x l) then replicate (length (x :: l)) 1
    else (λ s, (s - py_min x l) / (py_max x l - py_min x l)) <$> (x :: l).
Proof. reflexivity. Qed.

Lemma normalize_length (scores : list Q) :
  length (_normalize_scores scores) = length scores.
Proof.
  destruct scores as [|x l]; [done|]. rewrite normalize_cons.
  destruct (Qeq_bool _ _); [apply length_replicate | apply length_fmap].
Qed.

Lemma unit_interval_div (s mn mx : Q) :
  mn <= s → s <= mx → ¬ mx == mn →
  0 <= (s - mn) / (mx - mn) ∧ (s - mn) / (mx - mn) <= 1.
Proof.
  intros H1 H2 Hne.
  assert (0 < mx - mn) as Hpos.
  { apply (Qplus_lt_l _ _ mn). ring_simplify.
    apply Qle_lt_or_eq in H1 as H1'. apply Qle_lt_or_eq in H2 as H2'.
    destruct (Qlt_le_dec mn mx) as [|Hle]; [done|].
    exfalso. apply Hne. apply Qle_antisym; [done|]. by eapply Qle_trans. }
  split.
  - apply Qle_shift_div_l; [done|]. ring_simplify.
    apply (Qplus_le_l _ _ mn). by ring_simplify.
  - apply Qle_shift_div_r; [done|]. ring_simplify.
    apply (Qplus_le_l _ _ mn). by ring_simplify.
Qed.

(** C4. Min-max normalization keeps the length of the vector; on a
    non-empty vector [x :: l] every normalized value lies in [0,1]; it is
    [(score - min) / (max - min)], with min and max the least and the
    greatest score, when max and min differ, and 1 for every score when
    they are equal, which is the case of a single score and of scores that
    are all equal; the empty vector gives the empty vector. *)
Theorem C4_normalize_scores (x : Q) (l : list Q) :
  let scores := x :: l in
  let min_score := py_min x l in
  let max_score := py_max x l in
  let normalized := _normalize_scores scores in
  _normalize_scores [] = []
  ∧ length normalized = length scores
  ∧ Forall (λ v, 0 <= v ∧ v <= 1) normalized
  ∧ (min_score ∈ scores ∧ max_score ∈ scores
     ∧ ∀ s, s ∈ scores → min_score <= s ∧ s <= max_score)
  ∧ (¬ max_score == min_score →
       normalized = (λ score, (score - min_score) / (max_score - min_score)) <$> scores)
  ∧ (max_score == min_score → normalized = replicate (length scores) 1)
  ∧ ((∀ s, s ∈ scores → s == x) → normalized = replicate (length scores) 1)
  ∧ _normalize_scores [x] = [1].
Proof.
  intros scores min_score max_score normalized.
  destruct (py_min_spec x l) as [Hmin_in Hmin]. destruct (py_max_spec x l) as [Hmax_in Hmax].
  assert (max_score == min_score → normalized = replicate (length scores) 1) as Heq.
  { intros H. unfold normalized, scores. rewrite normalize_cons.
    apply Qeq_bool_iff in H. fold max_score min_score. by rewrite H. }
  assert (¬ max_score == min_score → normalized =
            (λ score, (score - min_score) / (max_score - min_score)) <$> scores) as Hne.
  { intros H. unfold normalized, scores. rewrite normalize_cons.
    fold max_score min_score. destruct (Qeq_bool max_score min_score) eqn:E; [|done].
    by apply Qeq_bool_iff in E. }
  split_and!; try done.
  - apply normalize_length.
  - destruct (Qeq_dec max_score min_score) as [H|H].
    + rewrite (Heq H). apply Forall_replicate. split; [done|apply Qle_refl].
    + rewrite (Hne H). apply Forall_fmap, Forall_forall. intros s Hs. simpl.
      apply unit_interval_div; [by apply Hmin|by apply Hmax|done].
  - intros s Hs. split; [by apply Hmin|by apply Hmax].
  - intros Hall. apply Heq.
    eapply Qeq_trans; [apply (Hall _ Hmax_in)|symmetry; apply (Hall _ Hmin_in)].
  - rewrite normalize_cons. simpl.
    assert (Qeq_bool x x = true) as -> by (apply Qeq_bool_iff; reflexivity). done.
Qed.

End normalize.

(** ** Running [rerank] on the store *)

Section store.
Import Heap HybridReranker Aux.
Local Open Scope nat_scope.
Implicit Types (h : heap) (l c : loc) (d : dict).

Lemma bind_run {A B} (m : M A) (f : A → M B) h a h1 :
  m h = Ok (a, h1) → (m ≫= f) h = f a h1.
Proof. intros H. unfold mbind, M_bind. by rewrite H. Qed.

Lemma bind_raise {A B} (m : M A) (f : A → M B) h e :
  m h = Raise e → (m ≫= f) h = Raise e.
Proof. intros H. unfold mbind, M_bind. by rewrite H. Qed.

Lemma fresh_None h : h !! fresh (dom h) = None.
Proof. apply not_elem_of_dom, is_fresh. Qed.

Lemma lift_run {A} (r : res A) h a : r = Ok a → lift r h = Ok (a, h).
Proof. by intros ->. Qed.

Lemma index_run (l : list Q) i : i < length l → Py.index l i = Ok (at_ l i).
Proof.
  intros Hi. unfold Py.index, at_.
  destruct (lookup_lt_is_Some_2 l i Hi) as [x ->]. done.
Qed.

Lemma read_dict_run h l d : h !! l = Some (ODict d) → read_dict l h = Ok (d, h).
Proof. unfold read_dict. by intros ->. Qed.

Lemma read_list_run h l items : h !! l = Some (OList items) → read_list l h = Ok (items, h).
Proof. unfold read_list. by intros ->. Qed.

Lemma copy_run h l d :
  h !! l = Some (ODict d) →
  copy l h = Ok (fresh (dom h), <[fresh (dom h) := ODict d]> h).
Proof. intros H. unfold copy. by rewrite (bind_run _ _ _ _ _ (read_dict_run _ _ _ H)). Qed.

Lemma setitem_run h c d k v :
  h !! c = Some (ODict d) →
  setitem c k v h = Ok ((), <[c := ODict (<[k := v]> d)]> h).
Proof. unfold setitem. by intros ->. Qed.

Lemma append_run h l items c :
  h !! l = Some (OList items) →
  append l c h = Ok ((), <[l := OList (items ++ [c])]> h).
Proof. unfold append. by intros ->. Qed.

Lemma bind_eq {A B} (m : M A) (f : A → M B) h :
  (m ≫= f) h = match m h with Ok (a, h1) => f a h1 | Raise e => Raise e end.
Proof. reflexivity. Qed.

Lemma ret_eq {A} (a : A) h : mret (M := M) a h = Ok (a, h).
Proof. reflexivity. Qed.

(** A comprehension that only reads the dictionaries of a list. *)
Lemma mapM_read {B} (f : dict → res B) h (items : list loc) (ds : list dict) :
  Forall2 (λ l d, h !! l = Some (ODict d)) items ds →
  mapM (λ result, d ← read_dict result; lift (f d)) items h = lift (mapM f ds) h.
Proof.
  induction 1 as [|l d items ds Hl _ IH]; [done|].
  cbn [mapM]. rewrite !bind_eq, (read_dict_run _ _ _ Hl).
  unfold lift at 1 3. cbn [mbind res_bind]. destruct (f d) as [y|e]; [|done].
  rewrite bind_eq, IH. unfold lift. cbn. by destruct (mapM f ds).
Qed.

Lemma add_hybrid_result_run ALPHA nvs nbs bs L h acc i r d :
  h !! L = Some (OList acc) → h !! r = Some (ODict d) →
  i < length nvs → i < length nbs → i < length bs →
  add_hybrid_result ALPHA nvs nbs bs L i r h =
    Ok ((), <[L := OList (acc ++ [fresh (dom h)])]>
              (<[fresh (dom h) := ODict (fused_record ALPHA nvs nbs bs i d)]> h)).
Proof.
  intros HL Hr Hnv Hnb Hb. unfold add_hybrid_result.
  set (c := fresh (dom h)).
  assert (c ≠ L) as Hc.
  { intros Heq. pose proof (fresh_None h) as Hf. unfold c in Heq. congruence. }
  rewrite bind_eq, (lift_run _ _ _ (index_run _ _ Hnv)).
  rewrite bind_eq, (lift_run _ _ _ (index_run _ _ Hnb)).
  rewrite bind_eq, (copy_run _ _ _ Hr). fold c.
  rewrite bind_eq, (setitem_run _ c d) by apply lookup_insert_eq.
  rewrite insert_insert_eq.
  rewrite bind_eq, (lift_run _ _ _ (index_run _ _ Hb)).
  rewrite bind_eq, (setitem_run _ c _ "bm25_score") by apply lookup_insert_eq.
  rewrite insert_insert_eq.
  rewrite bind_eq, (setitem_run _ c _ "normalized_vector_score") by apply lookup_insert_eq.
  rewrite insert_insert_eq.
  rewrite bind_eq, (setitem_run _ c _ "normalized_bm25_score") by apply lookup_insert_eq.
  rewrite insert_insert_eq.
  rewrite (append_run _ L acc) by by rewrite lookup_insert_ne.
  done.
Qed.

(** The loop of [rerank]: it writes to new dictionaries and to the list
    [L] only, and leaves in [L] the copies of the candidates, in order. *)
Lemma for_enum_run ALPHA nvs nbs bs L h0 (items : list loc) (ds : list dict) :
  Forall2 (λ r d, h0 !! r = Some (ODict d)) items ds →
  h0 !! L = None →
  ∀ i h acc,
  h0 ⊆ h → h !! L = Some (OList acc) →
  i + length items ≤ length nvs →
  i + length items ≤ length nbs →
  i + length items ≤ length bs →
  ∃ h' copies,
    for_enum (add_hybrid_result ALPHA nvs nbs bs L) i items h = Ok ((), h')
    ∧ h0 ⊆ h'
    ∧ h' !! L = Some (OList (acc ++ copies))
    ∧ (∀ l, l ≠ L → is_Some (h !! l) → h' !! l = h !! l)
    ∧ Forall (λ c, h !! c = None) copies
    ∧ NoDup copies
    ∧ Forall2 (λ c d, h' !! c = Some (ODict d)) copies
        (imap (λ k, fused_record ALPHA nvs nbs bs (i + k)) ds).
Proof.
  intros Hitems HL0.
  induction Hitems as [|r d items ds Hr _ IH]; intros i h acc Hsub HL Hnv Hnb Hb.
  - exists h, []. rewrite app_nil_r. split_and!; try done; constructor.
  - cbn [length] in *. cbn [for_enum].
    set (c := fresh (dom h)).
    set (h1 := <[L := OList (acc ++ [c])]>
                 (<[c := ODict (fused_record ALPHA nvs nbs bs i d)]> h)).
    assert (h !! c = None) as Hc by apply fresh_None.
    assert (c ≠ L) as HcL by (intros Heq; rewrite Heq in Hc; congruence).
    assert (h0 !! c = None) as Hc0.
    { destruct (h0 !! c) as [o|] eqn:E; [|done].
      by rewrite (lookup_weaken _ _ _ _ E Hsub) in Hc. }
    assert (h0 ⊆ h1) as Hsub1.
    { unfold h1. apply insert_subseteq_r; [done|]. by apply insert_subseteq_r. }
    assert (h1 !! L = Some (OList (acc ++ [c]))) as HL1 by apply lookup_insert_eq.
    destruct (IH (S i) h1 (acc ++ [c]) Hsub1 HL1) as
      (h' & copies & Hrun & Hsub' & HL' & Hframe & Hnew & Hnd & Hrecs); [lia..|].
    assert (h1 !! c = Some (ODict (fused_record ALPHA nvs nbs bs i d))) as Hc1.
    { unfold h1. rewrite lookup_insert_ne by done. apply lookup_insert_eq. }
    exists h', (c :: copies).
    split_and!.
    + rewrite bind_eq.
      rewrite (add_hybrid_result_run _ _ _ _ _ _ acc _ _ d); try done; try lia.
      by apply (lookup_weaken _ _ _ _ Hr).
    + done.
    + by rewrite HL', <- app_assoc.
    + intros l Hl Hsome. rewrite Hframe; [|done|].
      * unfold h1. rewrite !lookup_insert_ne; [done| |done].
        intros <-. rewrite Hc in Hsome. by destruct Hsome.
      * unfold h1. rewrite lookup_insert_ne by done.
        rewrite lookup_insert_ne; [done|].
        intros <-. rewrite Hc in Hsome. by destruct Hsome.
    + constructor; [done|]. eapply Forall_impl; [exact Hnew|].
      intros c' Hc'. unfold h1 in Hc'.
      apply lookup_insert_None in Hc' as [Hc' _].
      by apply lookup_insert_None in Hc' as [Hc' _].
    + constructor; [|done]. intros Hin.
      rewrite Forall_forall in Hnew. specialize (Hnew _ Hin). congruence.
    + cbn [imap]. constructor.
      * rewrite Hframe; [|done|by eexists]. by rewrite Nat.add_0_r.
      * erewrite imap_ext; [exact Hrecs|].
        intros k x _. simpl. f_equal. lia.
Qed.

Lemma sort_desc_by_run h L (copies : list loc) (recs : list dict) keys (key : dict → res Q) :
  h !! L = Some (OList copies) →
  Forall2 (λ c d, h !! c = Some (ODict d)) copies recs →
  mapM key recs = Ok keys →
  sort_desc_by L (λ x, d ← read_dict x; lift (key d)) h =
    Ok ((), <[L := OList (Py.sort_desc Qle_bool (zip copies keys)).*1]> h).
Proof.
  intros HL Hrecs Hkeys. unfold sort_desc_by.
  rewrite bind_eq, (read_list_run _ _ _ HL).
  rewrite bind_eq, (mapM_read _ _ _ _ Hrecs), Hkeys. done.
Qed.

Lemma mapM_imap {A B C} (key : B → res C) (f : nat → A → B) (g : nat → C) (l : list A) :
  (∀ i x, key (f i x) = Ok (g i)) →
  mapM key (imap f l) = Ok (imap (λ i _, g i) l).
Proof.
  revert f g. induction l as [|x l IH]; intros f g Hkey; [done|].
  cbn [imap mapM]. rewrite Hkey. cbn [mbind res_bind].
  rewrite (IH (f ∘ S) (g ∘ S)) by (intros; apply Hkey). done.
Qed.

Lemma imap_indices {A B C} (g : nat → C) (l : list A) (k : list B) :
  length l = length k → imap (λ i _, g i) l = imap (λ i _, g i) k.
Proof.
  revert g k. induction l as [|x l IH]; intros g [|y k] Hlen; try done.
  cbn [imap]. f_equal. apply (IH (g ∘ S)). by injection Hlen.
Qed.

Lemma zip_imap {A B C} (f : nat → A → B) (g : nat → A → C) (l : list A) :
  zip (imap f l) (imap g l) = imap (λ i x, (f i x, g i x)) l.
Proof.
  revert f g. induction l as [|x l IH]; intros f g; [done|].
  cbn [imap zip zip_with]. f_equal. apply IH.
Qed.

(** Sorting two lists by the same keys keeps them related. *)
Lemma sort_desc_Forall2 {A B K} (le : K → K → bool) (R : A → B → Prop)
    (xs : list A) (ys : list B) (keys : list K) :
  Forall2 R xs ys →
  Forall2 R (Py.sort_desc le (zip xs keys)).*1 (Py.sort_desc le (zip ys keys)).*1.
Proof.
  intros HR.
  set (T := zip (zip xs ys) keys).
  assert (zip xs keys = (λ t : A * B * K, (t.1.1, t.2)) <$> T) as ->.
  { unfold T. clear T. revert keys.
    induction HR as [|x y xs ys _ _ IH]; intros [|k keys]; cbn; try done.
    by rewrite IH. }
  assert (zip ys keys = (λ t : A * B * K, (t.1.2, t.2)) <$> T) as ->.
  { unfold T. clear T. revert keys.
    induction HR as [|x y xs ys _ _ IH]; intros [|k keys]; cbn; try done.
    by rewrite IH. }
  rewrite <- !(sort_desc_map le le) by done.
  rewrite <- !list_fmap_compose.
  assert (Forall (λ t : A * B * K, R t.1.1 t.1.2) (Py.sort_desc le T)) as Hall.
  { rewrite sort_desc_perm. unfold T. clear T. revert keys.
    induction HR as [|x y xs ys Hxy _ IH]; intros [|k keys]; cbn; try constructor;
      [done|apply IH]. }
  induction Hall as [|t ts Ht _ IH]; cbn; constructor; done.
Qed.

Lemma res_mapM_length {A B} (f : A → res B) (l : list A) (k : list B) :
  mapM f l = Ok k → length k = length l.
Proof.
  revert k. induction l as [|x l IH]; intros k; cbn.
  - by intros [= <-].
  - destruct (f x) as [y|]; cbn; [|done].
    destruct (mapM f l) as [ys|]; cbn; [|done].
    intros [= <-]. cbn. f_equal. by apply IH.
Qed.

Lemma candidate_scores_Ok self index query (ds : list dict) vs bs :
  candidate_scores self index query ds = Ok (vs, bs) →
  ∃ m, id_to_bm25 (chunk_ids self) (get_scores index (_tokenize query)) = Ok m
    ∧ mapM (λ d : dict, Py.getitem d "vector_score" ≫= Py.as_num) ds = Ok vs
    ∧ mapM (λ d : dict, key ← Py.getitem d "id"; mret (get_bm25 m key)) ds = Ok bs.
Proof.
  unfold candidate_scores.
  destruct (id_to_bm25 _ _) as [m|]; simpl; [|done].
  destruct (mapM (λ d : dict, Py.getitem d "vector_score" ≫= Py.as_num) ds)
    as [vs'|]; simpl; [|done].
  destruct (mapM _ ds) as [bs'|] eqn:E; simpl; [|done].
  intros [= <- <-]. by exists m.
Qed.

Lemma fused_record_hybrid ALPHA nvs nbs bs i d :
  Py.getitem (fused_record ALPHA nvs nbs bs i d) "hybrid_score" ≫= Py.as_num
    = Ok (hybrid ALPHA (at_ nvs i) (at_ nbs i)).
Proof.
  unfold fused_record, annotate, Py.getitem.
  rewrite !lookup_insert_ne by done. by rewrite lookup_insert_eq.
Qed.

(** [rerank] on a non-empty list of candidates, with an index: the result
    is a new list of new dictionaries, the fused records in ranked order,
    and every object of the initial store is as it was. *)
Lemma rerank_run ALPHA self index query vr h (items : list loc) (ds : list dict) vs bs :
  bm25 self = Some index →
  h !! vr = Some (OList items) →
  items ≠ [] →
  Forall2 (λ r d, h !! r = Some (ODict d)) items ds →
  candidate_scores self index query ds = Ok (vs, bs) →
  ∃ out h' copies,
    rerank ALPHA self query vr h = Ok (out, h')
    ∧ h ⊆ h'
    ∧ h !! out = None
    ∧ h' !! out = Some (OList copies)
    ∧ Forall (λ c, h !! c = None) copies
    ∧ NoDup copies
    ∧ Forall2 (λ c d, h' !! c = Some (ODict d)) copies
        (rank_by (hybrid_scores ALPHA vs bs) (fused ALPHA vs bs ds)).
Proof.
  intros Hbm Hvr Hne Hitems (m & Hm & Hvs & Hbs)%candidate_scores_Ok.
  pose proof (res_mapM_length _ _ _ Hvs) as Hlvs.
  pose proof (res_mapM_length _ _ _ Hbs) as Hlbs.
  pose proof (Forall2_length _ _ _ Hitems) as Hlen.
  set (L := fresh (dom h)).
  set (h1 := <[L := OList []]> h).
  assert (h !! L = None) as HL by apply fresh_None.
  assert (h ⊆ h1) as Hsub1 by by apply insert_subseteq.
  destruct (for_enum_run ALPHA (_normalize_scores vs) (_normalize_scores bs) bs L h
              items ds Hitems HL 0 h1 [] Hsub1)
    as (h2 & copies & Hloop & Hsub2 & HL2 & Hframe & Hnew & Hnd & Hrecs).
  { apply lookup_insert_eq. }
  { rewrite normalize_length. lia. }
  { rewrite normalize_length. lia. }
  { lia. }
  set (keys := hybrid_scores ALPHA vs bs).
  set (sorted := (Py.sort_desc Qle_bool (zip copies keys)).*1).
  assert (sorted ≡ₚ copies) as Hperm.
  { unfold sorted. rewrite sort_desc_perm. rewrite fst_zip; [done|].
    unfold keys, hybrid_scores. rewrite length_imap.
    apply Forall2_length in Hrecs. rewrite length_imap in Hrecs. lia. }
  exists L, (<[L := OList sorted]> h2), sorted.
  assert (Forall (λ c, c ≠ L) copies) as HneL.
  { eapply Forall_impl; [exact Hnew|]. intros c Hc ->.
    unfold h1 in Hc. by rewrite lookup_insert_eq in Hc. }
  split_and!.
  - unfold rerank. rewrite bind_eq, (read_list_run _ _ _ Hvr).
    destruct items as [|r items]; [done|]. rewrite Hbm.
    rewrite bind_eq, (lift_run _ _ _ Hm).
    rewrite bind_eq, (mapM_read _ _ _ _ Hitems), (lift_run _ _ _ Hvs).
    rewrite bind_eq, (mapM_read _ _ _ _ Hitems), (lift_run _ _ _ Hbs).
    rewrite bind_eq. unfold alloc at 1. fold L. fold h1.
    rewrite bind_eq, Hloop.
    rewrite bind_eq.
    erewrite (sort_desc_by_run h2 L copies _ keys); [done|done|exact Hrecs|].
    unfold keys, hybrid_scores.
    rewrite (imap_indices _ vs ds) by lia.
    apply mapM_imap. intros i d. apply fused_record_hybrid.
  - apply insert_subseteq_r; [done|]. done.
  - done.
  - apply lookup_insert_eq.
  - rewrite Hperm. eapply Forall_impl; [exact Hnew|]. intros c Hc.
    unfold h1 in Hc. by apply lookup_insert_None in Hc as [Hc _].
  - by rewrite Hperm.
  - unfold rank_by, fused. fold keys.
    eapply Forall2_impl; [apply sort_desc_Forall2; exact Hrecs|].
    intros c d Hd. simpl in Hd.
    rewrite lookup_insert_ne; [done|]. intros <-. congruence.
Qed.

End store.

(** ** The scores of the candidates *)

Section scores.
Import Heap HybridReranker Aux.
Local Open Scope nat_scope.

Lemma id_to_bm25_loop (scores : list Q) (ids : list Z) : ∀ (g : nat → nat) (m0 : gmap Z Q),
  (∀ i, i < length ids → g i < length scores) →
  ∃ m, Py.for_each (λ (m : gmap Z Q) (x : nat * Z),
                      s ← Py.index scores x.1; Ok (<[x.2 := s]> m))
                   (imap (λ i z, (g i, z)) ids) m0 = Ok m
       ∧ ∀ z, z ∉ ids → m !! z = m0 !! z.
Proof.
  induction ids as [|z0 ids IH]; intros g m0 Hg.
  - exists m0. done.
  - cbn [imap Py.for_each]. simpl.
    rewrite (index_run scores (g 0)) by (apply Hg; simpl; lia). simpl.
    destruct (IH (g ∘ S) (<[z0 := at_ scores (g 0)]> m0)) as (m & Hm & Hout).
    { intros i Hi. apply Hg. simpl. lia. }
    exists m. split; [exact Hm|].
    intros z Hz. rewrite Hout by (intros ?; apply Hz; by right).
    apply lookup_insert_ne. intros ->. apply Hz. left.
Qed.

Lemma id_to_bm25_Ok (ids : list Z) (scores : list Q) :
  length ids ≤ length scores →
  ∃ m, id_to_bm25 ids scores = Ok m ∧ ∀ z, z ∉ ids → m !! z = None.
Proof.
  intros Hlen. destruct (id_to_bm25_loop scores ids id ∅) as (m & Hm & Hout).
  { intros i Hi. simpl. lia. }
  exists m. split; [exact Hm|]. intros z Hz. by rewrite Hout.
Qed.

Lemma Qred_den_1 (q : Q) : Qden (Qred q) = 1%positive → (q == inject_Z (Qnum (Qred q)))%Q.
Proof.
  intros H. rewrite <- (Qred_correct q) at 1.
  destruct (Qred q) as [n d]. simpl in *. by subst.
Qed.

(** A key that is not an identifier of the index gets the default. *)
Lemma get_bm25_absent (m : gmap Z Q) (ids : list Z) (key : value) :
  (∀ z, z ∉ ids → m !! z = None) →
  ¬ id_in_index ids key → get_bm25 m key = 0%Q.
Proof.
  intros Hm Hkey. destruct key as [z|q|s]; simpl in *; [| |done].
  - by rewrite Hm.
  - case_decide as Hden; [|done]. rewrite Hm; [done|].
    intros Hin. apply Hkey. exists (Qnum (Qred q)). split; [done|].
    by apply Qred_den_1.
Qed.

Lemma number_as_num (d : dict) k v :
  number k d = Some v ↔ Py.getitem d k ≫= Py.as_num = Ok v.
Proof.
  unfold number, Py.getitem. destruct (d !! k) as [[z|q|s]|]; simpl; split; congruence.
Qed.

(** On candidates that carry a semantic score and an identifier, and with
    an index that answers a score per document, the scores are defined. *)
Lemma candidate_scores_total self index query (ds : list dict) :
  length (chunk_ids self) ≤ length (get_scores index (_tokenize query)) →
  Forall well_formed ds →
  ∃ m vs bs,
    candidate_scores self index query ds = Ok (vs, bs)
    ∧ (∀ z, z ∉ chunk_ids self → m !! z = None)
    ∧ Forall2 (λ d v, number "vector_score" d = Some v) ds vs
    ∧ Forall2 (λ (d : dict) b, ∃ key, d !! "id" = Some key ∧ b = get_bm25 m key) ds bs.
Proof.
  intros Hlen Hwf. destruct (id_to_bm25_Ok _ _ Hlen) as (m & Hm & Hout).
  assert (∃ vs, mapM (λ d : dict, Py.getitem d "vector_score" ≫= Py.as_num) ds = Ok vs
            ∧ Forall2 (λ d v, number "vector_score" d = Some v) ds vs) as (vs & Hvs & Hvs2).
  { induction Hwf as [|d ds Hd _ IH]; [by exists []|].
    destruct IH as (vs & IH1 & IH2). destruct Hd as [[v Hv] _].
    exists (v :: vs). split; [|by constructor].
    cbn [mapM]. apply number_as_num in Hv. rewrite Hv. simpl. by rewrite IH1. }
  assert (∃ bs, mapM (λ d : dict, key ← Py.getitem d "id"; mret (get_bm25 m key)) ds = Ok bs
            ∧ Forall2 (λ (d : dict) b, ∃ key, d !! "id" = Some key ∧ b = get_bm25 m key) ds bs)
    as (bs & Hbs & Hbs2).
  { clear Hvs Hvs2. induction Hwf as [|d ds Hd _ IH]; [by exists []|].
    destruct IH as (bs & IH1 & IH2). destruct Hd as [_ [key Hkey]].
    exists (get_bm25 m key :: bs). split; [|constructor; eauto].
    cbn [mapM]. apply getitem_Ok in Hkey. rewrite Hkey. simpl. by rewrite IH1. }
  exists m, vs, bs. split_and!; try done.
  unfold candidate_scores. rewrite Hm. simpl. rewrite Hvs. simpl. by rewrite Hbs.
Qed.

End scores.

(** ** The result of [rerank] *)

Section rerank.
Import Heap HybridReranker Aux.
Local Open Scope nat_scope.

Lemma contents_Some h l (ds : list dict) :
  contents h l = Some ds ↔
  ∃ items, h !! l = Some (OList items)
           ∧ Forall2 (λ r d, h !! r = Some (ODict d)) items ds.
Proof.
  unfold contents. destruct (h !! l) as [[d|items]|] eqn:E.
  - split; [done|]. by intros (? & ? & _).
  - rewrite mapM_Some. split.
    + intros H. exists items. split; [done|].
      eapply Forall2_impl; [exact H|]. intros r d' Hr. simpl in Hr.
      by destruct (h !! r) as [[?|?]|]; simplify_eq.
    + intros (items' & [= <-] & H).
      eapply Forall2_impl; [exact H|]. intros r d' Hr. simpl. by rewrite Hr.
  - split; [done|]. by intros (? & ? & _).
Qed.

(** The guard of [rerank]: nothing to fuse, or nothing to fuse with. *)
Lemma rerank_guard ALPHA self query vr h (items : list loc) :
  h !! vr = Some (OList items) →
  items = [] ∨ bm25 self = None →
  rerank ALPHA self query vr h = Ok (vr, h).
Proof.
  intros Hvr Hguard. unfold rerank. rewrite bind_eq, (read_list_run _ _ _ Hvr).
  destruct Hguard as [->| ->]; [done|]. by destruct items.
Qed.

Lemma rerank_total ALPHA self index query vr h (ds : list dict) :
  bm25 self = Some index →
  length (chunk_ids self) ≤ length (get_scores index (_tokenize query)) →
  contents h vr = Some ds →
  Forall well_formed ds →
  ∃ out h' m vs bs,
    rerank ALPHA self query vr h = Ok (out, h')
    ∧ (∀ z, z ∉ chunk_ids self → m !! z = None)
    ∧ Forall2 (λ d v, number "vector_score" d = Some v) ds vs
    ∧ Forall2 (λ (d : dict) b, ∃ key, d !! "id" = Some key ∧ b = get_bm25 m key) ds bs
    ∧ contents h' out = Some (rank_by (hybrid_scores ALPHA vs bs) (fused ALPHA vs bs ds))
    ∧ h ⊆ h'
    ∧ (ds ≠ [] →
         h !! out = None
         ∧ ∃ copies, h' !! out = Some (OList copies)
                     ∧ Forall (λ c, h !! c = None) copies ∧ NoDup copies).
Proof.
  intros Hbm Hlen (items & Hvr & Hitems)%contents_Some Hwf.
  destruct (candidate_scores_total self index query ds Hlen Hwf)
    as (m & vs & bs & Hsc & Hm & Hvs & Hbs).
  destruct (decide (items = [])) as [->|Hne].
  - apply Forall2_nil_inv_l in Hitems as ->.
    apply Forall2_nil_inv_l in Hvs as ->. apply Forall2_nil_inv_l in Hbs as ->.
    exists vr, h, m, [], []. split_and!; try done.
    + by apply (rerank_guard _ _ _ _ _ []); [|left].
    + apply contents_Some. exists []. split; [done|constructor].
  - destruct (rerank_run ALPHA self index query vr h items ds vs bs)
      as (out & h' & copies & Hrun & Hsub & Hout & Hout' & Hnew & Hnd & Hrecs); try done.
    exists out, h', m, vs, bs. split_and!; try done.
    + apply contents_Some. by exists copies.
    + intros _. split; [done|]. by exists copies.
Qed.

End rerank.

(** ** The order of the fused list *)

Section order.
Import Heap HybridReranker Aux.
Local Open Scope Q_scope.

Lemma Qle_bool_total (a b : Q) : Qle_bool a b = false → Qle_bool b a = true.
Proof.
  intros H. apply Qle_bool_iff. apply Qlt_le_weak, Qnot_le_lt.
  intros Hle. apply Qle_bool_iff in Hle. congruence.
Qed.

Lemma Qle_bool_trans (a b c : Q) :
  Qle_bool a b = true → Qle_bool b c = true → Qle_bool a c = true.
Proof. rewrite !Qle_bool_iff. apply Qle_trans. Qed.

Lemma Qle_bool_ext (a b c d : Q) : (a <= b ↔ c <= d) → Qle_bool a b = Qle_bool c d.
Proof.
  intros H. destruct (Qle_bool a b) eqn:E1, (Qle_bool c d) eqn:E2; try done.
  - apply Qle_bool_iff, H, Qle_bool_iff in E1. congruence.
  - apply Qle_bool_iff, H, Qle_bool_iff in E2. congruence.
Qed.

Lemma at_lookup (l : list Q) (i : nat) (x : Q) : l !! i = Some x → at_ l i = x.
Proof. unfold at_. by intros ->. Qed.

(** Normalization keeps the order of the scores, ties included. *)
Lemma normalize_order (vs : list Q) (i j : nat) (vi vj : Q) :
  vs !! i = Some vi → vs !! j = Some vj →
  Qle_bool (at_ (_normalize_scores vs) i) (at_ (_normalize_scores vs) j) = Qle_bool vi vj.
Proof.
  intros Hi Hj. destruct vs as [|x l]; [done|].
  destruct (py_min_spec x l) as [_ Hmin]. destruct (py_max_spec x l) as [_ Hmax].
  assert (vi ∈ x :: l) as Hvi by (by eapply list_elem_of_lookup_2).
  assert (vj ∈ x :: l) as Hvj by (by eapply list_elem_of_lookup_2).
  rewrite normalize_cons. destruct (Qeq_bool (py_max x l) (py_min x l)) eqn:E.
  - apply Qeq_bool_iff in E.
    rewrite !(at_lookup _ _ 1)
      by (apply lookup_replicate_2; by eapply lookup_lt_Some).
    apply Qle_bool_ext. split; [|done]. intros _.
    apply Qle_trans with (py_max x l); [by apply Hmax|].
    rewrite E. by apply Hmin.
  - apply Qeq_bool_neq in E.
    erewrite !at_lookup by (rewrite list_lookup_fmap; (rewrite Hi || rewrite Hj); done).
    apply Qle_bool_ext.
    assert (0 < py_max x l - py_min x l) as Hpos.
    { apply (Qplus_lt_l _ _ (py_min x l)). ring_simplify.
      destruct (Qlt_le_dec (py_min x l) (py_max x l)) as [|Hle]; [done|].
      exfalso. apply E. apply Qle_antisym; [done|].
      apply Qle_trans with x; [apply Hmin|apply Hmax]; left. }
    unfold Qdiv. rewrite Qmult_le_r by by apply Qinv_lt_0_compat.
    unfold Qminus. apply Qplus_le_l.
Qed.

(** Keys that compare alike rank alike. *)
Lemma rank_by_ext (keys keys' : list Q) (records : list dict) :
  (∀ i j ki kj ki' kj',
     keys !! i = Some ki → keys !! j = Some kj →
     keys' !! i = Some ki' → keys' !! j = Some kj' →
     Qle_bool ki kj = Qle_bool ki' kj') →
  length keys = length keys' →
  rank_by keys records = rank_by keys' records.
Proof.
  intros Hcmp Hlen. unfold rank_by.
  set (T := zip records (zip keys keys')).
  assert (zip records keys = (λ t : dict * (Q * Q), (t.1, t.2.1)) <$> T) as ->.
  { unfold T. clear T Hcmp. revert keys keys' Hlen.
    induction records as [|d records IH]; intros [|k keys] [|k' keys'] Hlen; try done.
    cbn. f_equal. apply IH. by injection Hlen. }
  assert (zip records keys' = (λ t : dict * (Q * Q), (t.1, t.2.2)) <$> T) as ->.
  { unfold T. clear T Hcmp. revert keys keys' Hlen.
    induction records as [|d records IH]; intros [|k keys] [|k' keys'] Hlen; try done.
    cbn. f_equal. apply IH. by injection Hlen. }
  rewrite <- (sort_desc_map (λ a b : Q * Q, Qle_bool a.1 b.1) Qle_bool) by done.
  rewrite <- (sort_desc_map (λ a b : Q * Q, Qle_bool a.2 b.2) Qle_bool) by done.
  rewrite <- !list_fmap_compose.
  assert (Py.sort_desc (λ a b : Q * Q, Qle_bool a.1 b.1) T
          = Py.sort_desc (λ a b : Q * Q, Qle_bool a.2 b.2) T) as ->; [|done].
  rewrite <- (list_fmap_id T) at 2.
  rewrite <- (sort_desc_map (λ a b : Q * Q, Qle_bool a.1 b.1)
                (λ a b : Q * Q, Qle_bool a.2 b.2) id).
  { by rewrite list_fmap_id. }
  intros x y Hx Hy. simpl. symmetry.
  apply list_elem_of_lookup in Hx as [i Hx]. apply list_elem_of_lookup in Hy as [j Hy].
  unfold T in Hx, Hy.
  apply lookup_zip_with_Some in Hx as (d1 & [k1 k1'] & -> & _ & Hx).
  apply lookup_zip_with_Some in Hy as (d2 & [k2 k2'] & -> & _ & Hy).
  apply lookup_zip_with_Some in Hx as (? & ? & [= <- <-] & Hx1 & Hx2).
  apply lookup_zip_with_Some in Hy as (? & ? & [= <- <-] & Hy1 & Hy2).
  simpl. by eapply Hcmp.
Qed.

End order.

(** ** The fused records *)

Section fused.
Import Heap HybridReranker Aux.
Local Open Scope Q_scope.

Lemma annotate_lookup (d : dict) (hs b nv nb : Q) :
  annotate d hs b nv nb !! "hybrid_score" = Some (VFloat hs)
  ∧ annotate d hs b nv nb !! "bm25_score" = Some (VFloat b)
  ∧ annotate d hs b nv nb !! "normalized_vector_score" = Some (VFloat nv)
  ∧ annotate d hs b nv nb !! "normalized_bm25_score" = Some (VFloat nb)
  ∧ ∀ k, k ∉ added_keys → annotate d hs b nv nb !! k = d !! k.
Proof.
  unfold annotate. split_and!.
  - rewrite !lookup_insert_ne by done. apply lookup_insert_eq.
  - rewrite !lookup_insert_ne by done. apply lookup_insert_eq.
  - rewrite !lookup_insert_ne by done. apply lookup_insert_eq.
  - apply lookup_insert_eq.
  - intros k Hk. unfold added_keys in Hk.
    rewrite !not_elem_of_cons in Hk. destruct Hk as (? & ? & ? & ? & _).
    by rewrite !lookup_insert_ne.
Qed.

Lemma fused_lookup ALPHA vs bs (ds : list dict) (i : nat) :
  fused ALPHA vs bs ds !! i =
    fused_record ALPHA (_normalize_scores vs) (_normalize_scores bs) bs i <$> ds !! i.
Proof. unfold fused. apply list_lookup_imap. Qed.

Lemma fused_length ALPHA vs bs (ds : list dict) :
  length (fused ALPHA vs bs ds) = length ds.
Proof. unfold fused. apply length_imap. Qed.

Lemma fused_score_record ALPHA nvs nbs bs i d :
  fused_score (fused_record ALPHA nvs nbs bs i d) = hybrid ALPHA (at_ nvs i) (at_ nbs i).
Proof.
  unfold fused_score, number, fused_record.
  by destruct (annotate_lookup d (hybrid ALPHA (at_ nvs i) (at_ nbs i)) (at_ bs i)
                 (at_ nvs i) (at_ nbs i)) as (-> & _).
Qed.

(** The key of a record in the sort is the fused score it carries. *)
Lemma zip_fused_keys ALPHA vs bs (ds : list dict) :
  length vs = length ds →
  zip (fused ALPHA vs bs ds) (hybrid_scores ALPHA vs bs)
    = (λ d, (d, fused_score d)) <$> fused ALPHA vs bs ds.
Proof.
  intros Hlen. unfold fused, hybrid_scores.
  rewrite (imap_indices _ vs ds) by done.
  rewrite zip_imap, fmap_imap. apply imap_ext. intros i d _. simpl.
  by rewrite fused_score_record.
Qed.

Lemma rank_by_perm (keys : list Q) (records : list dict) :
  length records = length keys → rank_by keys records ≡ₚ records.
Proof.
  intros Hlen. unfold rank_by. rewrite sort_desc_perm. rewrite fst_zip; [done|lia].
Qed.

End fused.

(** ** Fusion: order, lexical default, frame *)

Section claims.
Import Heap HybridReranker Aux.
Local Open Scope Q_scope.

Lemma filter_fmap {A B} (P : B → Prop) `{∀ y, Decision (P y)} (f : A → B) (l : list A) :
  filter P (f <$> l) = f <$> filter (λ x, P (f x)) l.
Proof.
  induction l as [|x l IH]; [done|].
  rewrite fmap_cons, !filter_cons, IH. by case_decide.
Qed.

Lemma descending_fst {A} (f : A → Q) (l : list A) :
  Aux.descending Qle_bool ((λ d, (d, f d)) <$> l) →
  StronglySorted (λ x y, f y <= f x) l.
Proof.
  induction l as [|x l IH]; intros Hs; [constructor|].
  rewrite fmap_cons in Hs. apply StronglySorted_inv in Hs as [Hs Hx].
  constructor; [by apply IH|].
  apply Forall_fmap in Hx. eapply Forall_impl; [exact Hx|].
  intros y Hy. simpl in Hy. by apply Qle_bool_iff.
Qed.

(** A sort of records keyed by a function of the record. *)
Lemma sort_desc_keyed {A} (f : A → Q) (l : list A) :
  Py.sort_desc Qle_bool ((λ d, (d, f d)) <$> l)
    = (λ d, (d, f d)) <$> (Py.sort_desc Qle_bool ((λ d, (d, f d)) <$> l)).*1.
Proof.
  assert (Forall (λ x : A * Q, x = (x.1, f x.1))
            (Py.sort_desc Qle_bool ((λ d, (d, f d)) <$> l))) as Hall.
  { rewrite sort_desc_perm. apply Forall_fmap, Forall_true. done. }
  induction Hall as [|x xs Hx _ IH]; [done|].
  rewrite !fmap_cons. simpl. by rewrite <- Hx, <- IH.
Qed.

Lemma hybrid_alpha_1 (ALPHA nv nb : Q) : ALPHA == 1 → hybrid ALPHA nv nb == nv.
Proof. intros H. unfold hybrid. rewrite H. ring. Qed.

Lemma hybrid_alpha_0 (ALPHA nv nb : Q) : ALPHA == 0 → hybrid ALPHA nv nb == nb.
Proof. intros H. unfold hybrid. rewrite H. ring. Qed.

Lemma hybrid_scores_lookup ALPHA vs bs (i : nat) (k : Q) :
  hybrid_scores ALPHA vs bs !! i = Some k →
  k = hybrid ALPHA (at_ (_normalize_scores vs) i) (at_ (_normalize_scores bs) i).
Proof.
  unfold hybrid_scores. rewrite list_lookup_imap.
  destruct (vs !! i); simpl; congruence.
Qed.

(** C5. With an index, on candidates that carry a semantic score and an
    identifier, [rerank] returns the fused records sorted by fused score,
    descending, records of equal fused score in input order.  With
    ALPHA = 1 this order is the one of a stable descending sort by raw
    semantic score, with ALPHA = 0 by raw lexical score. *)
Theorem C5_fusion_order ALPHA self index query vr h (ds : list dict) :
  bm25 self = Some index →
  (length (chunk_ids self) ≤ length (get_scores index (_tokenize query)))%nat →
  contents h vr = Some ds →
  Forall well_formed ds →
  ∃ out h' vs bs,
    let records := fused ALPHA vs bs ds in
    let output := rank_by (hybrid_scores ALPHA vs bs) records in
    rerank ALPHA self query vr h = Ok (out, h')
    ∧ contents h' out = Some output
    ∧ Forall2 (λ d v, number "vector_score" d = Some v) records vs
    ∧ Forall2 (λ d b, number "bm25_score" d = Some b) records bs
    ∧ output ≡ₚ records
    ∧ StronglySorted (λ x y, fused_score y <= fused_score x) output
    ∧ (∀ k : Q, filter (λ d, fused_score d == k) output
                = filter (λ d, fused_score d == k) records)
    ∧ (ALPHA == 1 → output = rank_by vs records)
    ∧ (ALPHA == 0 → output = rank_by bs records).
Proof.
  intros Hbm Hlen Hvr Hwf.
  destruct (rerank_total ALPHA self index query vr h ds Hbm Hlen Hvr Hwf)
    as (out & h' & m & vs & bs & Hrun & _ & Hvs & Hbs & Hout & _).
  exists out, h', vs, bs. intros records output.
  pose proof (Forall2_length _ _ _ Hvs) as Hlvs.
  pose proof (Forall2_length _ _ _ Hbs) as Hlbs.
  assert (length (hybrid_scores ALPHA vs bs) = length vs) as Hlk
    by apply length_imap.
  assert (zip records (hybrid_scores ALPHA vs bs)
          = (λ d, (d, fused_score d)) <$> records) as Hzip
    by (apply zip_fused_keys; lia).
  split_and!; try done.
  - apply Forall2_same_length_lookup. split; [unfold records; rewrite fused_length; lia|].
    intros i rec v Hrec Hv. unfold records in Hrec. rewrite fused_lookup in Hrec.
    destruct (ds !! i) as [d|] eqn:Hd; [|done]. injection Hrec as <-.
    rewrite Forall2_lookup in Hvs. specialize (Hvs i). rewrite Hd, Hv in Hvs.
    inversion Hvs as [? ? Hn|]; subst. unfold number, fused_record in *.
    destruct (annotate_lookup d (hybrid ALPHA (at_ (_normalize_scores vs) i)
                (at_ (_normalize_scores bs) i)) (at_ bs i) (at_ (_normalize_scores vs) i)
                (at_ (_normalize_scores bs) i)) as (_ & _ & _ & _ & Hother).
    rewrite Hother; [done|]. unfold added_keys. rewrite !not_elem_of_cons.
    split_and!; try done. apply not_elem_of_nil.
  - apply Forall2_same_length_lookup. split; [unfold records; rewrite fused_length; lia|].
    intros i rec b Hrec Hb. unfold records in Hrec. rewrite fused_lookup in Hrec.
    destruct (ds !! i) as [d|] eqn:Hd; [|done]. injection Hrec as <-.
    unfold number, fused_record.
    destruct (annotate_lookup d (hybrid ALPHA (at_ (_normalize_scores vs) i)
                (at_ (_normalize_scores bs) i)) (at_ bs i) (at_ (_normalize_scores vs) i)
                (at_ (_normalize_scores bs) i)) as (_ & -> & _).
    by rewrite (at_lookup _ _ _ Hb).
  - apply rank_by_perm. unfold records. rewrite fused_length. lia.
  - unfold output, rank_by. rewrite Hzip. apply descending_fst.
    rewrite <- sort_desc_keyed.
    apply (sort_desc_descending _ Qle_bool_total Qle_bool_trans).
  - intros k. unfold output, rank_by. rewrite Hzip.
    rewrite filter_fmap.
    rewrite (filter_sort_desc Qle_bool (λ x : dict * Q, fused_score x.1 == k)).
    + rewrite filter_fmap, <- list_fmap_compose. simpl. apply list_fmap_id.
    + intros x y Hx Hy Hkx Hky.
      apply list_elem_of_fmap in Hx as (d1 & -> & _).
      apply list_elem_of_fmap in Hy as (d2 & -> & _). simpl in *.
      apply Qle_bool_iff. rewrite Hkx, Hky. apply Qle_refl.
  - intros Halpha. unfold output. apply rank_by_ext; [|lia].
    intros i j ki kj vi vj Hki Hkj Hvi Hvj.
    apply hybrid_scores_lookup in Hki as ->. apply hybrid_scores_lookup in Hkj as ->.
    rewrite <- (normalize_order vs i j vi vj Hvi Hvj).
    apply Qle_bool_ext. by rewrite !hybrid_alpha_1.
  - intros Halpha. unfold output. apply rank_by_ext; [|lia].
    intros i j ki kj bi bj Hki Hkj Hbi Hbj.
    apply hybrid_scores_lookup in Hki as ->. apply hybrid_scores_lookup in Hkj as ->.
    rewrite <- (normalize_order bs i j bi bj Hbi Hbj).
    apply Qle_bool_ext. by rewrite !hybrid_alpha_0.
Qed.

(** C7. On an empty candidate list [rerank] returns the list itself and
    changes nothing, whatever the state of the index.  With an index, a
    candidate whose identifier is not one of the index is fused with the
    lexical score 0: [rerank] returns, and the record of that candidate in
    the output carries [bm25_score] 0. *)
Theorem C7_empty_list_and_absent_id ALPHA self query vr h (ds : list dict) :
  contents h vr = Some ds →
  (ds = [] → rerank ALPHA self query vr h = Ok (vr, h))
  ∧ ∀ index,
      bm25 self = Some index →
      (length (chunk_ids self) ≤ length (get_scores index (_tokenize query)))%nat →
      Forall well_formed ds →
      ∃ out h' vs bs,
        let records := fused ALPHA vs bs ds in
        let output := rank_by (hybrid_scores ALPHA vs bs) records in
        rerank ALPHA self query vr h = Ok (out, h')
        ∧ contents h' out = Some output
        ∧ ∀ (i : nat) (d : dict) key,
            ds !! i = Some d → d !! "id" = Some key →
            ¬ id_in_index (chunk_ids self) key →
            bs !! i = Some 0
            ∧ ∃ record, records !! i = Some record
                ∧ record ∈ output
                ∧ record !! "bm25_score" = Some (VFloat 0).
Proof.
  intros Hvr. split.
  - intros ->. apply contents_Some in Hvr as (items & Hitems & Hall).
    apply Forall2_nil_inv_r in Hall as ->.
    by apply (rerank_guard _ _ _ _ _ []); [|left].
  - intros index Hbm Hlen Hwf.
    destruct (rerank_total ALPHA self index query vr h ds Hbm Hlen Hvr Hwf)
      as (out & h' & m & vs & bs & Hrun & Hm & Hvs & Hbs & Hout & _).
    exists out, h', vs, bs. intros records output. split_and!; try done.
    intros i d key Hd Hkey Habsent.
    assert (bs !! i = Some 0) as Hb.
    { rewrite Forall2_lookup in Hbs. specialize (Hbs i). rewrite Hd in Hbs.
      inversion Hbs as [? b (key' & Hkey' & ->)|]; subst.
      f_equal. rewrite Hkey in Hkey'. injection Hkey' as <-.
      by apply (get_bm25_absent m (chunk_ids self)). }
    split; [done|].
    set (record := fused_record ALPHA (_normalize_scores vs) (_normalize_scores bs) bs i d).
    assert (records !! i = Some record) as Hrec.
    { unfold records. by rewrite fused_lookup, Hd. }
    exists record. split_and!; [done| |].
    + assert (output ≡ₚ records) as ->.
      { apply rank_by_perm. unfold records, hybrid_scores.
        rewrite fused_length, length_imap.
        apply Forall2_length in Hvs. lia. }
      by eapply list_elem_of_lookup_2.
    + unfold record, fused_record.
      destruct (annotate_lookup d (hybrid ALPHA (at_ (_normalize_scores vs) i)
                  (at_ (_normalize_scores bs) i)) (at_ bs i) (at_ (_normalize_scores vs) i)
                  (at_ (_normalize_scores bs) i)) as (_ & -> & _).
      by rewrite (at_lookup _ _ _ Hb).
Qed.

(** C8. With an index, on candidates that carry a semantic score and an
    identifier, every record of the output is the copy of a candidate: it
    carries the raw semantic score of the candidate, its raw lexical score,
    the two normalized values and the fused score, and every other field
    is the candidate's.  No object of the initial store is changed, so the
    input list and its records are as they were, and on a non-empty input
    the output list and its records are new objects. *)
Theorem C8_fusion_frame ALPHA self index query vr h (ds : list dict) :
  bm25 self = Some index →
  (length (chunk_ids self) ≤ length (get_scores index (_tokenize query)))%nat →
  contents h vr = Some ds →
  Forall well_formed ds →
  ∃ out h' vs bs,
    let nvs := _normalize_scores vs in
    let nbs := _normalize_scores bs in
    let records := fused ALPHA vs bs ds in
    let output := rank_by (hybrid_scores ALPHA vs bs) records in
    rerank ALPHA self query vr h = Ok (out, h')
    ∧ contents h' out = Some output
    ∧ output ≡ₚ records
    ∧ length records = length ds
    ∧ (∀ (i : nat) (d : dict), ds !! i = Some d →
         ∃ record v b nv nb,
           records !! i = Some record
           ∧ record ∈ output
           ∧ vs !! i = Some v ∧ bs !! i = Some b
           ∧ nvs !! i = Some nv ∧ nbs !! i = Some nb
           ∧ number "vector_score" d = Some v
           ∧ number "vector_score" record = Some v
           ∧ record !! "bm25_score" = Some (VFloat b)
           ∧ record !! "normalized_vector_score" = Some (VFloat nv)
           ∧ record !! "normalized_bm25_score" = Some (VFloat nb)
           ∧ record !! "hybrid_score" = Some (VFloat (ALPHA * nv + (1 - ALPHA) * nb))
           ∧ ∀ k, k ∉ added_keys → record !! k = d !! k)
    ∧ h ⊆ h'
    ∧ contents h' vr = Some ds
    ∧ (ds ≠ [] →
         h !! out = None
         ∧ ∃ copies, h' !! out = Some (OList copies)
                     ∧ Forall (λ c, h !! c = None) copies ∧ NoDup copies).
Proof.
  intros Hbm Hlen Hvr Hwf.
  destruct (rerank_total ALPHA self index query vr h ds Hbm Hlen Hvr Hwf)
    as (out & h' & m & vs & bs & Hrun & Hm & Hvs & Hbs & Hout & Hsub & Hnew).
  exists out, h', vs, bs. intros nvs nbs records output.
  pose proof (Forall2_length _ _ _ Hvs) as Hlvs.
  pose proof (Forall2_length _ _ _ Hbs) as Hlbs.
  assert (output ≡ₚ records) as Hperm.
  { apply rank_by_perm. unfold records, hybrid_scores.
    rewrite fused_length, length_imap. lia. }
  split_and!; try done.
  - apply fused_length.
  - intros i d Hd.
    pose proof (lookup_lt_Some _ _ _ Hd) as Hi.
    destruct (lookup_lt_is_Some_2 vs i) as [v Hv]; [lia|].
    destruct (lookup_lt_is_Some_2 bs i) as [b Hb]; [lia|].
    destruct (lookup_lt_is_Some_2 nvs i) as [nv Hnv];
      [unfold nvs; rewrite normalize_length; lia|].
    destruct (lookup_lt_is_Some_2 nbs i) as [nb Hnb];
      [unfold nbs; rewrite normalize_length; lia|].
    set (record := fused_record ALPHA nvs nbs bs i d).
    assert (records !! i = Some record) as Hrec.
    { unfold records. by rewrite fused_lookup, Hd. }
    assert (record ∈ output) as Hin.
    { apply (elem_of_Permutation_proper record _ _ Hperm).
      by eapply list_elem_of_lookup_2. }
    assert (number "vector_score" d = Some v) as Hnum.
    { rewrite Forall2_lookup in Hvs. specialize (Hvs i). rewrite Hd, Hv in Hvs.
      by inversion Hvs. }
    assert (record = annotate d (hybrid ALPHA nv nb) b nv nb) as Hrecord.
    { unfold record, fused_record.
      by rewrite (at_lookup _ _ _ Hnv), (at_lookup _ _ _ Hnb), (at_lookup _ _ _ Hb). }
    destruct (annotate_lookup d (hybrid ALPHA nv nb) b nv nb)
      as (Hh & Hb' & Hnv' & Hnb' & Hother).
    rewrite <- Hrecord in Hh, Hb', Hnv', Hnb', Hother.
    exists record, v, b, nv, nb.
    split_and!; try done.
    unfold number. rewrite Hother; [exact Hnum|].
    unfold added_keys. rewrite !not_elem_of_cons.
    split_and!; try done. apply not_elem_of_nil.
  - apply contents_Some in Hvr as (items & Hitems & Hall).
    apply contents_Some. exists items.
    split; [exact (lookup_weaken _ _ _ _ Hitems Hsub)|].
    eapply Forall2_impl; [exact Hall|]. intros r d Hr.
    exact (lookup_weaken _ _ _ _ Hr Hsub).
Qed.

(** C10. A reranker built on an empty corpus has no index.  Without an
    index [rerank] returns the very list it was given and changes nothing
    in the store, whatever the list holds: the candidates keep their order
    and get no fused score, and the synthesizer, on a first candidate
    without fused score, gates on its semantic score. *)
Theorem C10_no_index ALPHA (BM25Okapi_new : list (list string) → BM25Okapi)
    self query vr h (items : list loc) :
  bm25 self = None →
  h !! vr = Some (OList items) →
  bm25 (init BM25Okapi_new []) = None
  ∧ rerank ALPHA self query vr h = Ok (vr, h)
  ∧ ∀ str_float generator question first rest ru,
      contents h vr = Some (first :: rest) →
      first !! "hybrid_score" = None →
      AnswerGenerator.context_score first = default (VInt 0) (first !! "vector_score")
      ∧ ∀ v, number "vector_score" first = Some v →
          AnswerGenerator.generate_answer str_float generator question (first :: rest) ru
          = if Py.lt v (AnswerGenerator.threshold generator)
            then Ok (None, AnswerGenerator.gate_reason str_float generator v)
            else AnswerGenerator.synthesize str_float generator question (first :: rest) v.
Proof.
  intros Hbm Hvr. split_and!.
  - reflexivity.
  - by apply (rerank_guard _ _ _ _ _ items); [|right].
  - intros str_float generator question first rest ru _ Hnone.
    assert (AnswerGenerator.context_score first = default (VInt 0) (first !! "vector_score"))
      as Hscore.
    { unfold AnswerGenerator.context_score, Py.get. by rewrite Hnone. }
    split; [done|]. intros v Hv.
    apply generate_answer_cons. rewrite Hscore.
    unfold number in Hv. by destruct (first !! "vector_score") as [[?|?|?]|]; simplify_eq.
Qed.

End claims.

(** ** The claims on the sample data *)

Lemma scenario_well_formed : Forall Aux.well_formed Scenario.candidates.
Proof. repeat constructor; by eexists. Qed.

Lemma scenario_stranger_well_formed :
  Forall Aux.well_formed [Scenario.candidate 10 (9 # 10); Scenario.stranger].
Proof. repeat constructor; by eexists. Qed.

Example scenario_fused_order :
  (λ r, (λ x, (x.1, Heap.contents x.2 x.1)) <$> r)
    (HybridReranker.rerank (1 # 2) Scenario.reranker "iso" 3%positive Scenario.store)
  = Ok (4%positive,
        Some [Aux.annotate (Scenario.candidate 11 (9 # 10)) (24000 # 24000) (8 # 10) 1 (6000 # 6000);
              Aux.annotate (Scenario.candidate 10 (9 # 10)) (12000 # 24000) (2 # 10) 1 (0 # 6000)]).
Proof. vm_compute. reflexivity. Qed.

(** The test data at the end of [answer_generator.py]. *)
Example main_test_data :
  let first : dict :=
    <["chunk_text" := VStr "ISO 13849-1 is an international standard that specifies safety requirements for safety-related parts of control systems. It provides guidance on the design and integration of safety-related parts of control systems."]>
    (<["title" := VStr "ISO 13849-1:2015 - Safety of machinery"]>
    (<["url" := VStr "https://www.iso.org/standard/69883.html"]>
    (<["vector_score" := VFloat (85 # 100)]> ∅))) in
  let second : dict :=
    <["chunk_text" := VStr "The standard defines performance levels (PL) from PLa to PLe, where PLe represents the highest level of safety integrity."]>
    (<["title" := VStr "ISO 13849-1:2015 - Safety of machinery"]>
    (<["url" := VStr "https://www.iso.org/standard/69883.html"]>
    (<["vector_score" := VFloat (75 # 100)]> ∅))) in
  AnswerGenerator.generate_answer (λ _, "0.7") AnswerGenerator.init
    "What is ISO 13849-1?" [first; second] false
  = Ok (Some ("ISO 13849-1 is an international standard that specifies safety requirements for safety-related parts of control systems"
              +:+ AnswerGenerator.nl +:+ AnswerGenerator.nl
              +:+ "Sources: [1] ISO 13849-1:2015 - Safety of machinery"),
        "Answer generated from 1 sources with top score 0.850").
Proof. vm_compute. reflexivity. Qed.

Lemma C5_witness :
  ∃ out h' vs bs,
    HybridReranker.rerank 1 Scenario.reranker "iso" 3%positive Scenario.store = Ok (out, h')
    ∧ Heap.contents h' out
      = Some (Aux.rank_by vs (Aux.fused 1 vs bs Scenario.candidates)).
Proof.
  destruct (C5_fusion_order 1 Scenario.reranker Scenario.index "iso" 3%positive
              Scenario.store Scenario.candidates eq_refl (le_n 2) eq_refl
              scenario_well_formed)
    as (out & h' & vs & bs & Hrun & Hout & _ & _ & _ & _ & _ & Hone & _).
  exists out, h', vs, bs. split; [exact Hrun|].
  rewrite Hout. f_equal. apply Hone. reflexivity.
Defined.

Lemma C7_witness :
  ∃ out h' record,
    HybridReranker.rerank config.ALPHA Scenario.reranker "iso" 3%positive
      Scenario.store_with_stranger = Ok (out, h')
    ∧ (∃ output, Heap.contents h' out = Some output ∧ record ∈ output)
    ∧ record !! "id" = Some (VInt 99)
    ∧ record !! "bm25_score" = Some (VFloat 0).
Proof.
  destruct (C7_empty_list_and_absent_id config.ALPHA Scenario.reranker "iso" 3%positive
              Scenario.store_with_stranger
              [Scenario.candidate 10 (9 # 10); Scenario.stranger] eq_refl)
    as [_ Hfuse].
  destruct (Hfuse Scenario.index eq_refl (le_n 2) scenario_stranger_well_formed)
    as (out & h' & vs & bs & Hrun & Hout & Habsent).
  destruct (Habsent 1%nat Scenario.stranger (VInt 99) eq_refl eq_refl)
    as (Hb & record & Hrec & Hin & Hscore).
  { simpl. rewrite !elem_of_cons, elem_of_nil. intros [?|[?|[]]]; discriminate. }
  exists out, h', record. split_and!; [exact Hrun|by eexists| |exact Hscore].
  rewrite fused_lookup in Hrec. injection Hrec as <-. unfold Aux.fused_record.
  match goal with |- Aux.annotate ?d ?hs ?b ?nv ?nb !! _ = _ =>
    destruct (annotate_lookup d hs b nv nb) as (_ & _ & _ & _ & ->) end.
  - reflexivity.
  - unfold Aux.added_keys. rewrite !not_elem_of_cons.
    split_and!; try done. apply not_elem_of_nil.
Defined.

Lemma C8_witness :
  ∃ out h',
    HybridReranker.rerank config.ALPHA Scenario.reranker "iso" 3%positive Scenario.store
      = Ok (out, h')
    ∧ Scenario.store ⊆ h'
    ∧ Heap.contents h' 3%positive = Some Scenario.candidates
    ∧ Scenario.store !! out = None.
Proof.
  destruct (C8_fusion_frame config.ALPHA Scenario.reranker Scenario.index "iso" 3%positive
              Scenario.store Scenario.candidates eq_refl (le_n 2) eq_refl
              scenario_well_formed)
    as (out & h' & vs & bs & Hrun & _ & _ & _ & _ & Hsub & Hin & Hnew).
  exists out, h'. split_and!; [exact Hrun|exact Hsub|exact Hin|].
  apply Hnew. discriminate.
Defined.

Lemma C10_witness :
  HybridReranker.rerank config.ALPHA
    (HybridReranker.init (λ _, Scenario.index) []) "iso" 3%positive Scenario.store
  = Ok (3%positive, Scenario.store).
Proof.
  apply (C10_no_index config.ALPHA (λ _, Scenario.index)
           (HybridReranker.init (λ _, Scenario.index) []) "iso" 3%positive
           Scenario.store [1%positive; 2%positive] eq_refl eq_refl).
Defined.

(** * Further properties *)

(** ** The response of the synthesizer *)

Section response.
Import AnswerGenerator Aux.
Variable str_float : Q → string.

Lemma format_context_Ok (c : dict) (entry : Response.context) :
  format_context c = Ok entry ↔ formats c entry.
Proof.
  unfold format_context, formats, Py.getitem.
  destruct entry as [t s so u]. simpl.
  destruct (c !! "chunk_text") as [t'|]; simpl; [|split; [done|by intros (? & _)]].
  destruct (c !! "title") as [so'|]; simpl; [|split; [done|by intros (_ & _ & ? & _)]].
  destruct (c !! "url") as [u'|]; simpl; [|split; [done|by intros (_ & _ & _ & ?)]].
  split.
  - by intros [= -> <- -> ->].
  - by intros ([= ->] & -> & [= ->] & [= ->]).
Qed.

Lemma mapM_format_context (contexts : list dict) (entries : list Response.context) :
  mapM format_context contexts = Ok entries ↔ Forall2 formats contexts entries.
Proof.
  revert entries. induction contexts as [|c contexts IH]; intros entries.
  - cbn. split; [intros [= <-]; constructor|by intros ->%Forall2_nil_inv_l].
  - cbn [mapM]. split.
    + destruct (format_context c) as [e|] eqn:Hc; simpl; [|done].
      destruct (mapM format_context contexts) as [es|]; simpl; [|done].
      intros [= <-]. constructor; [by apply format_context_Ok|by apply IH].
    + intros (e & es & He & Hes & ->)%Forall2_cons_inv_l.
      apply format_context_Ok in He. apply IH in Hes. rewrite He. simpl.
      by rewrite Hes.
Qed.

Lemma format_response_Ok self query (contexts : list dict) ru (r : Response.t) :
  format_response str_float self query contexts ru = Ok r
  ↔ generate_answer str_float self query contexts ru
      = Ok (Response.answer r, Response.reason r)
    ∧ Forall2 formats contexts (Response.contexts r)
    ∧ Response.reranker_used r = ru
    ∧ Response.query r = query.
Proof.
  unfold format_response. destruct r as [a cs ru' re q]. simpl.
  destruct (generate_answer str_float self query contexts ru) as [[a' re']|e];
    simpl; [|split; [done|by intros (? & _)]].
  destruct (mapM format_context contexts) as [es|e] eqn:Hes; simpl.
  - apply mapM_format_context in Hes. split.
    + by intros [= <- <- <- <- <-].
    + intros ([= -> ->] & Hcs & -> & ->). do 2 f_equal.
      apply mapM_format_context in Hes, Hcs. congruence.
  - split; [done|]. intros (_ & Hcs & _). apply mapM_format_context in Hcs. congruence.
Qed.


Lemma visit_total self query st (c : dict) :
  answerable c → ∃ st', visit self query st c = Ok st'.
Proof.
  intros ([s Hs] & [t Ht] & [title Htitle] & [u Hu]). unfold visit.
  rewrite Hs. simpl. destruct (Py.lt s _); [by eexists|].
  unfold Py.getitem. rewrite Ht, Htitle, Hu. simpl.
  destruct (_extract_relevant_sentences query t); by eexists.
Qed.

Lemma for_each_visit_total self query (l : list dict) :
  Forall answerable l → ∀ st, ∃ st', Py.for_each (visit self query) l st = Ok st'.
Proof.
  induction 1 as [|c l Hc _ IH]; intros st; [by eexists|].
  destruct (visit_total self query st c Hc) as [st1 Hst1].
  destruct (IH st1) as [st' Hst']. exists st'. cbn. rewrite Hst1. exact Hst'.
Qed.

(** X2. On candidates that carry what is read (a numeric score, a text, a
    title, a URL), the synthesizer never raises: [generate_answer] needs
    this of the three first candidates only, [format_response] of all. *)
Theorem X2_synthesizer_returns self query (contexts : list dict) ru :
  Forall answerable (take 3 contexts) →
  ∃ answer reason,
    generate_answer str_float self query contexts ru = Ok (answer, reason)
    ∧ (Forall answerable contexts →
         ∃ r, format_response str_float self query contexts ru = Ok r
              ∧ Response.answer r = answer ∧ Response.reason r = reason
              ∧ length (Response.contexts r) = length contexts).
Proof.
  intros Htop.
  assert (∃ answer reason,
            generate_answer str_float self query contexts ru = Ok (answer, reason))
    as (answer & reason & Hgen).
  { destruct contexts as [|first rest]; [by eexists _, _|].
    pose proof Htop as Hfirst. rewrite firstn_cons in Hfirst.
    apply Forall_cons in Hfirst as [([top Hscore] & _) _].
    rewrite (generate_answer_cons _ _ _ _ _ _ _ Hscore).
    destruct (Py.lt top (threshold self)); [by eexists _, _|].
    unfold synthesize, collect.
    destruct (for_each_visit_total self query _ Htop ([], [])) as [[parts cits] ->].
    simpl. destruct parts; by eexists _, _. }
  exists answer, reason. split; [exact Hgen|]. intros Hall.
  assert (∃ entries, Forall2 formats contexts entries) as [entries Hentries].
  { clear Htop Hgen. induction Hall as [|c cs Hc _ [es IH]]; [by exists []|].
    destruct Hc as (_ & [t Ht] & [title Htitle] & [u Hu]).
    exists ({| Response.text := VStr t; Response.score := context_score c;
               Response.source := title; Response.url := u |} :: es).
    constructor; [done|exact IH]. }
  exists {| Response.answer := answer; Response.contexts := entries;
            Response.reranker_used := ru; Response.reason := reason;
            Response.query := query |}.
  split_and!; try done.
  - by apply format_response_Ok.
  - simpl. symmetry. by eapply Forall2_length.
Qed.





(** A query without a word finds no sentence. *)
Lemma extract_no_words (query text : string) :
  PyStr.findall_words (PyStr.lower query) = [] →
  _extract_relevant_sentences query text = [].
Proof.
  intros Hq. unfold _extract_relevant_sentences.
  assert (Forall (λ x : string * nat, x.2 = 0%nat)
            (Py.sort_desc Nat.leb (scored_sentences query text))) as Hzero.
  { rewrite sort_desc_perm. unfold scored_sentences, overlap, words.
    rewrite Hq. apply Forall_fmap, Forall_true. intros s. simpl.
    rewrite (left_absorb_L ∅ (∩)). apply size_empty. }
  rewrite filter_qualifies_zero; [done|].
  by apply Forall_take.
Qed.

(** X4. A query without a word character (only punctuation, say) never
    gets an answer: when [generate_answer] returns, the answer is null. *)
Theorem X4_query_without_words self query (contexts : list dict) ru answer reason :
  PyStr.findall_words (PyStr.lower query) = [] →
  generate_answer str_float self query contexts ru = Ok (answer, reason) →
  answer = None.
Proof.
  intros Hq. destruct contexts as [|first rest]; [by intros [= <- _]|].
  destruct (Py.as_num (context_score first)) as [top|] eqn:Htop;
    [|by cbn; rewrite Htop].
  rewrite (generate_answer_cons _ _ _ _ _ _ _ Htop).
  destruct (Py.lt top (threshold self)); [by intros [= <- _]|].
  unfold synthesize.
  destruct (collect self query (first :: rest)) as [[parts cits]|] eqn:Hcol; [|done].
  cbn -[collect]. destruct parts as [|p parts]; [by intros [= <- _]|].
  apply collect_Ok in Hcol as (picks & Hparts & _ & _ & Hall).
  destruct picks as [|pick picks]; [done|].
  apply Forall_cons in Hall as [(_ & c & _ & Hcon) _].
  destruct Hcon as (t & _ & _ & _ & _ & _ & Hsents & Hne & _).
  by rewrite (extract_no_words query t Hq) in Hsents.
Qed.

End response.

Section dedup_order.
Import AnswerGenerator Aux.

Lemma dedup_fold_sublist (l : list string) : ∀ st,
  ∃ k, (foldl dedup_step st l).2 = st.2 ++ k ∧ k `sublist_of` l.
Proof.
  induction l as [|p l IH]; intros st; simpl.
  - exists []. by rewrite app_nil_r.
  - destruct (IH (dedup_step st p)) as (k & -> & Hk).
    unfold dedup_step. case_decide; simpl.
    + exists k. split; [done|]. by apply sublist_cons.
    + exists (p :: k). rewrite <- app_assoc. split; [done|]. by apply sublist_skip.
Qed.

(** X5. Removing duplicates keeps the sentences in their order and loses
    none: the result is a subsequence of the input with the same members. *)
Theorem X5_dedup_subsequence (answer_parts : list string) :
  unique_parts answer_parts `sublist_of` answer_parts
  ∧ ∀ part, part ∈ unique_parts answer_parts ↔ part ∈ answer_parts.
Proof.
  split.
  - destruct (dedup_fold_sublist answer_parts (∅, [])) as (k & Hk & Hsub).
    unfold unique_parts. by rewrite Hk.
  - intros part. apply unique_parts_elem.
Qed.

End dedup_order.

Lemma scenario_answerable : Forall Aux.answerable Scenario.candidates.
Proof.
  repeat apply Forall_cons_2; [| |apply Forall_nil_2].
  - split_and!; [by exists (9 # 10)%Q|by eexists|by eexists|by eexists].
  - split_and!; [by exists (9 # 10)%Q|by eexists|by eexists|by eexists].
Qed.

Lemma X2_witness :
  ∃ r, AnswerGenerator.format_response (λ _, "0.7") AnswerGenerator.init
         "What is ISO 13849-1?" Scenario.candidates false = Ok r
       ∧ length (AnswerGenerator.Response.contexts r) = 2%nat.
Proof.
  destruct (X2_synthesizer_returns (λ _, "0.7") AnswerGenerator.init
              "What is ISO 13849-1?" Scenario.candidates false scenario_answerable)
    as (answer & reason & _ & Hresp).
  destruct (Hresp scenario_answerable) as (r & Hr & _ & _ & Hlen).
  exists r. split; [exact Hr|exact Hlen].
Defined.


Lemma X4_witness :
  ∃ answer reason,
    AnswerGenerator.generate_answer (λ _, "0.7") AnswerGenerator.init "???"
      Scenario.candidates false = Ok (answer, reason)
    ∧ answer = None.
Proof.
  exists None, "No relevant information found in contexts".
  split; [vm_compute; reflexivity|].
  apply (X4_query_without_words (λ _, "0.7") AnswerGenerator.init "???"
           Scenario.candidates false None "No relevant information found in contexts").
  - reflexivity.
  - vm_compute. reflexivity.
Defined.

(** ** The tokenizer *)

Section tokenizer.
Import HybridReranker Aux.
Local Open Scope nat_scope.

Lemma lower_char_not_upper (c : ascii) : PyStr.between 65 90 (PyStr.lower_char c) = false.
Proof.
  unfold PyStr.lower_char. destruct (PyStr.between 65 90 c) eqn:E; [|done].
  unfold PyStr.between, PyStr.code in *.
  apply andb_true_iff in E as [E1 E2]. apply N.leb_le in E1, E2.
  rewrite N_ascii_embedding by lia.
  apply andb_false_iff. right. apply N.leb_gt. lia.
Qed.

Lemma lower_chars (s : string) :
  Forall (λ c, PyStr.between 65 90 c = false) (list_ascii_of_string (PyStr.lower s)).
Proof.
  induction s as [|c s IH]; simpl; constructor; [apply lower_char_not_upper|done].
Qed.

Lemma snoc_chars (cur : string) (c : ascii) :
  list_ascii_of_string (PyStr.snoc cur c) = list_ascii_of_string cur ++ [c].
Proof. unfold PyStr.snoc. by rewrite chars_app. Qed.

Lemma snoc_not_empty (cur : string) (c : ascii) : PyStr.snoc cur c ≠ "".
Proof.
  intros H. apply (f_equal list_ascii_of_string) in H. rewrite snoc_chars in H.
  by destruct (list_ascii_of_string cur).
Qed.

Lemma flush_tokens (P : ascii → Prop) (cur : string) :
  Forall P (list_ascii_of_string cur) →
  Forall (λ t, t ≠ "" ∧ Forall P (list_ascii_of_string t)) (PyStr.flush cur).
Proof.
  intros Hcur. unfold PyStr.flush. destruct cur as [|c cur]; simpl; [constructor|].
  constructor; [|constructor]. split; [done|exact Hcur].
Qed.

Lemma findall_words_from_tokens (R : ascii → Prop) (s cur : string) :
  Forall R (list_ascii_of_string s) →
  Forall (λ c, PyStr.is_word_char c = true ∧ R c) (list_ascii_of_string cur) →
  Forall (λ t, t ≠ "" ∧ Forall (λ c, PyStr.is_word_char c = true ∧ R c)
                           (list_ascii_of_string t))
    (PyStr.findall_words_from cur s).
Proof.
  revert cur. induction s as [|c s IH]; intros cur Hs Hcur; simpl.
  - by apply flush_tokens.
  - apply Forall_cons in Hs as [Hc Hs]. destruct (PyStr.is_word_char c) eqn:E.
    + apply IH; [done|]. rewrite snoc_chars. apply Forall_app. split; [done|].
      by repeat constructor.
    + apply Forall_app. split; [by apply flush_tokens|apply IH; [done|constructor]].
Qed.

Lemma tokenize_tokens (text : string) : Forall token (_tokenize text).
Proof.
  unfold _tokenize, PyStr.findall_words.
  apply (findall_words_from_tokens _ _ "" (lower_chars text)). constructor.
Qed.

(** X6. Every token is a non-empty run of word characters without
    upper-case letters. *)
Theorem X6_tokens (text : string) : Forall token (_tokenize text).
Proof. apply tokenize_tokens. Qed.

Lemma lower_app (a b : string) : PyStr.lower (a +:+ b) = PyStr.lower a +:+ PyStr.lower b.
Proof.
  induction a as [|c a IH]; [done|].
  change (String (PyStr.lower_char c) (PyStr.lower (a +:+ b))
          = String (PyStr.lower_char c) (PyStr.lower a +:+ PyStr.lower b)).
  by rewrite IH.
Qed.

Lemma lower_id (s : string) :
  Forall (λ c, PyStr.between 65 90 c = false) (list_ascii_of_string s) →
  PyStr.lower s = s.
Proof.
  induction s as [|c s IH]; intros Hs; [done|]. simpl in *.
  apply Forall_cons in Hs as [Hc Hs]. unfold PyStr.lower_char. rewrite Hc.
  by rewrite IH.
Qed.

Lemma token_lower (t : string) : token t → PyStr.lower t = t.
Proof.
  intros [_ Ht]. apply lower_id. eapply Forall_impl; [exact Ht|]. by intros c [_ ?].
Qed.

Lemma lower_join (toks : list string) :
  Forall token toks → PyStr.lower (PyStr.join " " toks) = PyStr.join " " toks.
Proof.
  induction 1 as [|t toks Ht _ IH]; [done|].
  destruct toks as [|t2 toks]; [by apply token_lower|].
  change (PyStr.join " " (t :: t2 :: toks)) with (t +:+ " " +:+ PyStr.join " " (t2 :: toks)).
  rewrite !lower_app, IH, (token_lower t Ht). done.
Qed.

Lemma append_nil_r (s : string) : s +:+ "" = s.
Proof.
  induction s as [|x s IH]; [done|].
  change (String x (s +:+ "") = String x s). by rewrite IH.
Qed.

Lemma findall_words_from_word (w rest cur : string) :
  Forall (λ c, PyStr.is_word_char c = true) (list_ascii_of_string w) →
  PyStr.findall_words_from cur (w +:+ rest) = PyStr.findall_words_from (cur +:+ w) rest.
Proof.
  revert cur. induction w as [|c w IH]; intros cur Hw.
  - change ("" +:+ rest) with rest. by rewrite append_nil_r.
  - simpl in Hw. apply Forall_cons in Hw as [Hc Hw].
    change (String c w +:+ rest) with (String c (w +:+ rest)).
    cbn [PyStr.findall_words_from]. rewrite Hc, IH by done.
    unfold PyStr.snoc. by rewrite append_assoc.
Qed.

Lemma findall_words_join (toks : list string) :
  Forall token toks → PyStr.findall_words (PyStr.join " " toks) = toks.
Proof.
  unfold PyStr.findall_words.
  induction 1 as [|t toks Ht _ IH]; [done|].
  assert (Forall (λ c, PyStr.is_word_char c = true) (list_ascii_of_string t)) as Hw.
  { destruct Ht as [_ Ht]. eapply Forall_impl; [exact Ht|]. by intros c [? _]. }
  assert (PyStr.flush t = [t]) as Hflush.
  { destruct Ht as [Hne _]. unfold PyStr.flush. by destruct t. }
  destruct toks as [|t2 toks].
  - change (PyStr.join " " [t]) with t.
    rewrite <- (append_nil_r t) at 1.
    rewrite (findall_words_from_word t "" "" Hw).
    change ("" +:+ t) with t. exact Hflush.
  - change (PyStr.join " " (t :: t2 :: toks)) with (t +:+ " " +:+ PyStr.join " " (t2 :: toks)).
    rewrite (findall_words_from_word t _ "" Hw).
    change ("" +:+ t) with t.
    change (" " +:+ PyStr.join " " (t2 :: toks))
      with (String " " (PyStr.join " " (t2 :: toks))).
    cbn [PyStr.findall_words_from].
    change (PyStr.is_word_char " ") with false. cbn iota.
    by rewrite Hflush, IH.
Qed.

(** X7. Tokenizing is stable: the tokens of a text, joined by spaces and
    tokenized again, are the same tokens. *)
Theorem X7_tokenize_round_trip (text : string) :
  _tokenize (PyStr.join " " (_tokenize text)) = _tokenize text.
Proof.
  pose proof (tokenize_tokens text) as Htok.
  unfold _tokenize at 1. rewrite lower_join by done. by apply findall_words_join.
Qed.

End tokenizer.

(** ** Keyword matches *)

Section keyword_matches.
Import HybridReranker Aux.
Local Open Scope nat_scope.

Lemma related_sym (a b : string) : related a b = related b a.
Proof. unfold related. apply orb_comm. Qed.

Lemma str_prefix_refl (s : string) : String.prefix s s = true.
Proof. rewrite <- (append_nil_r s) at 2. apply prefix_app. Qed.

Lemma related_refl (a : string) : related a a = true.
Proof.
  unfold related. destruct a as [|c a]; [done|].
  cbn [PyStr.contains]. by rewrite str_prefix_refl.
Qed.

Lemma inner_loop (a : string) (lb : list string) : ∀ n,
  foldl (λ n b, if PyStr.contains a b || PyStr.contains b a then S n else n) n lb
  = n + length (filter (λ b, related a b = true) lb).
Proof.
  induction lb as [|b lb IH]; intros n; [simpl; lia|].
  cbn [foldl]. rewrite IH, filter_cons.
  change (PyStr.contains a b || PyStr.contains b a) with (related a b).
  case_decide as E.
  - rewrite E. cbn [length]. lia.
  - apply not_true_is_false in E. rewrite E. lia.
Qed.

Lemma outer_loop (la lb : list string) : ∀ n,
  foldl (λ n a,
           foldl (λ n b, if PyStr.contains a b || PyStr.contains b a then S n else n)
                 n lb) n la
  = n + count_related la lb.
Proof.
  unfold count_related. induction la as [|a la IH]; intros n; [simpl; lia|].
  cbn [foldl sum_list_with]. rewrite IH, inner_loop. lia.
Qed.

Lemma partial_matches_count (qs ts : gset string) :
  partial_matches qs ts = count_related (elements qs) (elements ts).
Proof. unfold partial_matches. by rewrite outer_loop. Qed.

Lemma count_related_cons_r (a : string) (la lb : list string) :
  count_related lb (a :: la)
  = length (filter (λ b, related a b = true) lb) + count_related lb la.
Proof.
  unfold count_related. induction lb as [|b lb IH]; [done|].
  cbn [sum_list_with]. rewrite IH, !filter_cons.
  rewrite (related_sym b a).
  case_decide as E; cbn [length]; lia.
Qed.

Lemma count_related_sym (la lb : list string) :
  count_related la lb = count_related lb la.
Proof.
  induction la as [|a la IH].
  - unfold count_related. simpl. induction lb as [|b lb IHb]; simpl; [done|].
    by rewrite <- IHb.
  - rewrite count_related_cons_r, <- IH. done.
Qed.

Lemma count_related_le (la lb : list string) :
  count_related la lb ≤ length la * length lb.
Proof.
  unfold count_related. induction la as [|a la IH]; [simpl; lia|].
  cbn [sum_list_with length].
  pose proof (length_filter (λ b, related a b = true) lb). lia.
Qed.

(** Every token of both sets is counted once more, as related to itself. *)
Lemma exact_le_partial (qs ts : gset string) :
  size (qs ∩ ts) ≤ count_related (elements qs) (elements ts).
Proof.
  assert (size (qs ∩ ts) = length (filter (λ a, a ∈ ts) (elements qs))) as ->.
  { unfold size, set_size. simpl. apply Permutation_length.
    apply NoDup_Permutation.
    - apply NoDup_elements.
    - apply NoDup_filter, NoDup_elements.
    - intros x. rewrite list_elem_of_filter, !elem_of_elements, elem_of_intersection.
      tauto. }
  unfold count_related. induction (elements qs) as [|a la IH]; [simpl; lia|].
  rewrite filter_cons. cbn [sum_list_with].
  case_decide as Ha; cbn [length]; [|lia].
  assert (1 ≤ length (filter (λ b, related a b = true) (elements ts))); [|lia].
  apply elem_of_elements in Ha. apply list_elem_of_split in Ha as (l1 & l2 & ->).
  rewrite filter_app, filter_cons, decide_True by apply related_refl.
  rewrite length_app. simpl. lia.
Qed.

(** X8. The keyword match score is symmetric in the query and the text. *)
Theorem X8_keyword_matches_symmetric (query text : string) :
  get_keyword_matches query text = get_keyword_matches text query.
Proof.
  unfold get_keyword_matches.
  rewrite !partial_matches_count, count_related_sym.
  by rewrite (comm_L (∩) (list_to_set (_tokenize query))).
Qed.

(** X9. A token shared by the query and the text counts 1.5, not 1: every
    exact match is counted again as a partial match.  The score is at
    least 1.5 times the number of shared tokens and at most that number
    plus half the number of pairs of tokens; it is 0 when the query or the
    text has no token. *)
Theorem X9_keyword_matches_bounds (query text : string) :
  let query_tokens : gset string := list_to_set (_tokenize query) in
  let text_tokens : gset string := list_to_set (_tokenize text) in
  let exact := inject_Z (Z.of_nat (size (query_tokens ∩ text_tokens))) in
  let pairs := inject_Z (Z.of_nat (size query_tokens * size text_tokens)) in
  (exact * (3 # 2) <= get_keyword_matches query text)%Q
  ∧ (get_keyword_matches query text <= exact + pairs * (1 # 2))%Q
  ∧ (_tokenize query = [] ∨ _tokenize text = [] →
       (get_keyword_matches query text == 0)%Q).
Proof.
  intros qs ts exact pairs. unfold get_keyword_matches. fold qs ts. fold exact.
  rewrite partial_matches_count.
  pose proof (exact_le_partial qs ts) as Hlo.
  pose proof (count_related_le (elements qs) (elements ts)) as Hhi.
  assert (exact <= inject_Z (Z.of_nat (count_related (elements qs) (elements ts))))%Q
    as Hlo' by (unfold exact; rewrite <- Zle_Qle; lia).
  assert (inject_Z (Z.of_nat (count_related (elements qs) (elements ts))) <= pairs)%Q
    as Hhi'.
  { unfold pairs. rewrite <- Zle_Qle. unfold size, set_size. simpl. lia. }
  split_and!.
  - lra.
  - lra.
  - intros Hempty.
    assert (count_related (elements qs) (elements ts) = 0 ∧ size (qs ∩ ts) = 0)
      as [Hc Hs].
    { destruct Hempty as [H|H].
      - assert (qs = ∅) as -> by (unfold qs; by rewrite H).
        rewrite elements_empty. split; [done|].
        rewrite (left_absorb_L ∅ (∩)). apply size_empty.
      - assert (ts = ∅) as -> by (unfold ts; by rewrite H).
        rewrite count_related_sym, elements_empty. split; [done|].
        rewrite (right_absorb_L ∅ (∩)). apply size_empty. }
    unfold exact. rewrite Hc, Hs. reflexivity.
Qed.

End keyword_matches.

(** ** More on normalization *)

Section normalize_more.
Import HybridReranker Aux.
Local Open Scope Q_scope.

Lemma Qle_bool_true_iff (a b : Q) : Qle_bool a b = true ↔ a <= b.
Proof. apply Qle_bool_iff. Qed.

(** X10. Normalization keeps the order of the scores: a score is below,
    or ties with, another one exactly when their normalized values do. *)
Theorem X10_normalize_monotone (scores : list Q) (i j : nat) (vi vj : Q) :
  scores !! i = Some vi → scores !! j = Some vj →
  ∃ ni nj,
    _normalize_scores scores !! i = Some ni
    ∧ _normalize_scores scores !! j = Some nj
    ∧ (ni <= nj ↔ vi <= vj)
    ∧ (ni == nj ↔ vi == vj).
Proof.
  intros Hi Hj.
  destruct (lookup_lt_is_Some_2 (_normalize_scores scores) i) as [ni Hni];
    [rewrite normalize_length; by eapply lookup_lt_Some|].
  destruct (lookup_lt_is_Some_2 (_normalize_scores scores) j) as [nj Hnj];
    [rewrite normalize_length; by eapply lookup_lt_Some|].
  exists ni, nj.
  pose proof (normalize_order scores i j vi vj Hi Hj) as Hij.
  pose proof (normalize_order scores j i vj vi Hj Hi) as Hji.
  rewrite (at_lookup _ _ _ Hni), (at_lookup _ _ _ Hnj) in Hij, Hji.
  assert (ni <= nj ↔ vi <= vj) as H1 by (by rewrite <- !Qle_bool_true_iff, Hij).
  assert (nj <= ni ↔ vj <= vi) as H2 by (by rewrite <- !Qle_bool_true_iff, Hji).
  split_and!; try done. split.
  - intros Heq. apply Qle_antisym; [apply H1|apply H2]; rewrite Heq; apply Qle_refl.
  - intros Heq. apply Qle_antisym; [apply H1|apply H2]; rewrite Heq; apply Qle_refl.
Qed.

Lemma py_min_le_max (x : Q) (l : list Q) : py_min x l <= py_max x l.
Proof.
  destruct (py_min_spec x l) as [_ Hmin]. destruct (py_max_spec x l) as [_ Hmax].
  apply Qle_trans with x; [apply Hmin|apply Hmax]; left.
Qed.

Lemma max_min_pos (x : Q) (l : list Q) :
  ¬ py_max x l == py_min x l → 0 < py_max x l - py_min x l.
Proof.
  intros Hne. pose proof (py_min_le_max x l) as Hle.
  destruct (Qlt_le_dec (py_min x l) (py_max x l)) as [Hlt|Hge]; [lra|].
  exfalso. apply Hne. by apply Qle_antisym.
Qed.

Lemma normalize_endpoints (x : Q) (l : list Q) :
  let scores := x :: l in
  Forall2 (λ v n,
             (v == py_max x l → n == 1)
             ∧ (v == py_min x l →
                  if Qeq_bool (py_max x l) (py_min x l) then n == 1 else n == 0))
    scores (_normalize_scores scores).
Proof.
  intros scores. unfold scores. rewrite normalize_cons.
  destruct (Qeq_bool (py_max x l) (py_min x l)) eqn:E.
  - apply Forall2_same_length_lookup. split; [by rewrite length_replicate|].
    intros i v n _ Hn. apply lookup_replicate in Hn as [-> _]. done.
  - apply Qeq_bool_neq in E. pose proof (max_min_pos x l E) as Hpos.
    apply Forall2_fmap_r, Forall_Forall2_diag, Forall_forall. intros v _. split.
    + intros ->. field. lra.
    + intros ->. field. lra.
Qed.

(** X11. The greatest score normalizes to 1; the least one normalizes to 0
    unless all scores tie, in which case every score, the least included,
    normalizes to 1. *)
Theorem X11_normalize_endpoints (x : Q) (l : list Q) :
  let scores := x :: l in
  Forall2 (λ v n,
             (v == py_max x l → n == 1)
             ∧ (v == py_min x l →
                  if Qeq_bool (py_max x l) (py_min x l) then n == 1 else n == 0))
    scores (_normalize_scores scores).
Proof. apply normalize_endpoints. Qed.

Lemma lt_affine (a b y m : Q) : 0 < a → Py.lt (a * y + b) (a * m + b) = Py.lt y m.
Proof.
  intros Ha. destruct (Py.lt y m) eqn:E.
  - apply lt_true in E. apply lt_true. nra.
  - apply lt_false in E. apply lt_false. nra.
Qed.

Lemma py_min_affine (a b x : Q) (l : list Q) :
  0 < a →
  py_min (a * x + b) ((λ s, a * s + b) <$> l) = a * py_min x l + b.
Proof.
  intros Ha. unfold py_min. revert x. induction l as [|y l IH]; intros x; [done|].
  rewrite fmap_cons. cbn [foldl]. rewrite lt_affine by done.
  destruct (Py.lt y x); apply IH.
Qed.

Lemma py_max_affine (a b x : Q) (l : list Q) :
  0 < a →
  py_max (a * x + b) ((λ s, a * s + b) <$> l) = a * py_max x l + b.
Proof.
  intros Ha. unfold py_max. revert x. induction l as [|y l IH]; intros x; [done|].
  rewrite fmap_cons. cbn [foldl]. rewrite lt_affine by done.
  destruct (Py.lt x y); apply IH.
Qed.

(** X12. Normalization does not see the scale of the scores: scores
    multiplied by a positive factor and shifted normalize to the same
    values. *)
Theorem X12_normalize_scale (a b : Q) (scores : list Q) :
  0 < a →
  Forall2 Qeq (_normalize_scores ((λ s, a * s + b) <$> scores))
              (_normalize_scores scores).
Proof.
  intros Ha. destruct scores as [|x l]; [constructor|].
  rewrite fmap_cons, !normalize_cons.
  rewrite py_min_affine, py_max_affine by done.
  assert (Qeq_bool (a * py_max x l + b) (a * py_min x l + b)
          = Qeq_bool (py_max x l) (py_min x l)) as ->.
  { destruct (Qeq_bool (py_max x l) (py_min x l)) eqn:E.
    - apply Qeq_bool_iff in E. apply Qeq_bool_iff. by rewrite E.
    - apply Qeq_bool_neq in E. destruct (Qeq_bool _ _) eqn:E'; [|done].
      apply Qeq_bool_iff in E'. exfalso. apply E. nra. }
  destruct (Qeq_bool (py_max x l) (py_min x l)) eqn:E.
  - cbn [length]. rewrite length_fmap.
    apply Forall_Forall2_diag, Forall_true. reflexivity.
  - apply Qeq_bool_neq in E. pose proof (max_min_pos x l E) as Hpos.
    change ((a * x + b) :: ((λ s, a * s + b) <$> l))
      with ((λ s, a * s + b) <$> (x :: l)).
    rewrite <- list_fmap_compose.
    apply Forall2_fmap, Forall_Forall2_diag, Forall_true. intros s. simpl.
    field. split; [lra|].
    assert (0 < a * (py_max x l - py_min x l)) by (by apply Qmult_lt_0_compat).
    lra.
Qed.

End normalize_more.

Lemma X10_witness :
  ∃ ni nj,
    HybridReranker._normalize_scores [2 # 10; 8 # 10]%Q !! 0%nat = Some ni
    ∧ HybridReranker._normalize_scores [2 # 10; 8 # 10]%Q !! 1%nat = Some nj
    ∧ (ni <= nj)%Q.
Proof.
  destruct (X10_normalize_monotone [2 # 10; 8 # 10]%Q 0 1 (2 # 10) (8 # 10) eq_refl eq_refl)
    as (ni & nj & Hi & Hj & Hle & _).
  exists ni, nj. split_and!; [exact Hi|exact Hj|]. apply Hle. discriminate.
Defined.

Lemma X12_witness :
  Forall2 Qeq (HybridReranker._normalize_scores ((λ s, 10 * s + 3)%Q <$> [2 # 10; 8 # 10]%Q))
              (HybridReranker._normalize_scores [2 # 10; 8 # 10]%Q).
Proof. apply (X12_normalize_scale 10 3 [2 # 10; 8 # 10]%Q). reflexivity. Defined.

(** ** The fused score *)

Section fused_score.
Import Heap HybridReranker Aux.
Local Open Scope Q_scope.

Lemma normalize_unit (scores : list Q) (i : nat) :
  (i < length scores)%nat →
  0 <= at_ (_normalize_scores scores) i ∧ at_ (_normalize_scores scores) i <= 1.
Proof.
  intros Hi. destruct scores as [|x l]; [simpl in Hi; lia|].
  destruct (lookup_lt_is_Some_2 (x :: l) i Hi) as [v Hv].
  destruct (py_min_spec x l) as [_ Hmin]. destruct (py_max_spec x l) as [_ Hmax].
  rewrite normalize_cons. destruct (Qeq_bool (py_max x l) (py_min x l)) eqn:E.
  - rewrite (at_lookup _ _ 1) by (by apply lookup_replicate_2). lra.
  - apply Qeq_bool_neq in E.
    erewrite at_lookup by (by rewrite list_lookup_fmap, Hv).
    apply list_elem_of_lookup_2 in Hv.
    apply unit_interval_div; [by apply Hmin|by apply Hmax|done].
Qed.

Lemma hybrid_unit (ALPHA nv nb : Q) :
  0 <= ALPHA <= 1 → 0 <= nv <= 1 → 0 <= nb <= 1 →
  0 <= hybrid ALPHA nv nb <= 1.
Proof. intros ? ? ?. unfold hybrid. split; nra. Qed.

Lemma number_fused_record ALPHA nvs nbs bs i d :
  number "hybrid_score" (fused_record ALPHA nvs nbs bs i d)
  = Some (hybrid ALPHA (at_ nvs i) (at_ nbs i)).
Proof.
  unfold number, fused_record.
  by destruct (annotate_lookup d (hybrid ALPHA (at_ nvs i) (at_ nbs i)) (at_ bs i)
                 (at_ nvs i) (at_ nbs i)) as (-> & _).
Qed.

(** A record of the output is the fused record of a candidate. *)
Lemma rank_by_fused_elem ALPHA vs bs (ds : list dict) (record : dict) :
  length vs = length ds →
  record ∈ rank_by (hybrid_scores ALPHA vs bs) (fused ALPHA vs bs ds) →
  ∃ i d, ds !! i = Some d
         ∧ record = fused_record ALPHA (_normalize_scores vs) (_normalize_scores bs) bs i d.
Proof.
  intros Hlen Hin.
  rewrite rank_by_perm in Hin
    by (unfold hybrid_scores; rewrite fused_length, length_imap; lia).
  apply list_elem_of_lookup in Hin as [i Hi]. rewrite fused_lookup in Hi.
  destruct (ds !! i) as [d|] eqn:Hd; [|done]. injection Hi as <-. by exists i, d.
Qed.

Lemma rank_by_fused_sorted ALPHA vs bs (ds : list dict) :
  length vs = length ds →
  StronglySorted (λ x y, fused_score y <= fused_score x)
    (rank_by (hybrid_scores ALPHA vs bs) (fused ALPHA vs bs ds)).
Proof.
  intros Hlen. unfold rank_by. rewrite zip_fused_keys by done.
  apply descending_fst. rewrite <- sort_desc_keyed.
  apply (sort_desc_descending _ Qle_bool_total Qle_bool_trans).
Qed.

(** X13. With a weight between 0 and 1 every fused score of the output
    lies between 0 and 1, whatever the scale of the raw scores. *)
Theorem X13_fused_score_unit ALPHA self index query vr h (ds : list dict) :
  bm25 self = Some index →
  (length (chunk_ids self) ≤ length (get_scores index (_tokenize query)))%nat →
  contents h vr = Some ds →
  Forall well_formed ds →
  0 <= ALPHA <= 1 →
  ∃ out h' output,
    rerank ALPHA self query vr h = Ok (out, h')
    ∧ contents h' out = Some output
    ∧ Forall (λ d, ∃ s, number "hybrid_score" d = Some s ∧ 0 <= s <= 1) output.
Proof.
  intros Hbm Hlen Hvr Hwf Halpha.
  destruct (rerank_total ALPHA self index query vr h ds Hbm Hlen Hvr Hwf)
    as (out & h' & m & vs & bs & Hrun & _ & Hvs & Hbs & Hout & _).
  eexists out, h', _. split_and!; [exact Hrun|exact Hout|].
  apply Forall2_length in Hvs, Hbs.
  apply Forall_forall. intros record Hin.
  apply rank_by_fused_elem in Hin as (i & d & Hd & ->); [|lia].
  apply lookup_lt_Some in Hd.
  eexists. split; [apply number_fused_record|].
  apply hybrid_unit; [done|apply normalize_unit; lia|apply normalize_unit; lia].
Qed.

(** X14. A single candidate always gets the fused score 1, whatever its
    semantic score and whatever the weight, so after fusion the confidence
    gate of a synthesizer whose threshold is at most 1 never abstains on
    it. *)
Theorem X14_single_candidate ALPHA self index query vr h (d : dict)
    (generator : AnswerGenerator.t) :
  bm25 self = Some index →
  (length (chunk_ids self) ≤ length (get_scores index (_tokenize query)))%nat →
  contents h vr = Some [d] →
  well_formed d →
  AnswerGenerator.threshold generator <= 1 →
  ∃ out h' record s,
    rerank ALPHA self query vr h = Ok (out, h')
    ∧ contents h' out = Some [record]
    ∧ record !! "hybrid_score" = Some (VFloat s)
    ∧ s == 1
    ∧ ∀ str_float question ru,
        AnswerGenerator.generate_answer str_float generator question [record] ru
        = AnswerGenerator.synthesize str_float generator question [record] s.
Proof.
  intros Hbm Hlen Hvr Hwf Hthr.
  destruct (rerank_total ALPHA self index query vr h [d] Hbm Hlen Hvr)
    as (out & h' & m & vs & bs & Hrun & _ & Hvs & Hbs & Hout & _);
    [by constructor|].
  apply Forall2_cons_inv_l in Hvs as (v & vs' & _ & ->%Forall2_nil_inv_l & ->).
  apply Forall2_cons_inv_l in Hbs as (b & bs' & _ & ->%Forall2_nil_inv_l & ->).
  set (s := hybrid ALPHA (at_ (_normalize_scores [v]) 0) (at_ (_normalize_scores [b]) 0)).
  set (record := fused_record ALPHA (_normalize_scores [v]) (_normalize_scores [b]) [b] 0 d).
  assert (s == 1) as Hs.
  { unfold s. rewrite !normalize_cons. simpl.
    assert (Qeq_bool v v = true) as -> by (apply Qeq_bool_iff; reflexivity).
    assert (Qeq_bool b b = true) as -> by (apply Qeq_bool_iff; reflexivity).
    unfold at_, hybrid. simpl. ring. }
  assert (record !! "hybrid_score" = Some (VFloat s)) as Hrec.
  { unfold record, fused_record. fold s. apply annotate_lookup. }
  exists out, h', record, s. split_and!; try done.
  intros str_float question ru.
  assert (Py.as_num (AnswerGenerator.context_score record) = Ok s) as Hscore.
  { unfold AnswerGenerator.context_score, Py.get. by rewrite Hrec. }
  rewrite (generate_answer_cons _ _ _ _ _ _ _ Hscore).
  assert (Py.lt s (AnswerGenerator.threshold generator) = false) as ->; [|done].
  apply lt_false. rewrite Hs. done.
Qed.

(** Some score normalizes to 1: the greatest one. *)
Lemma normalized_one (scores : list Q) :
  scores ≠ [] →
  ∃ i, (i < length scores)%nat ∧ at_ (_normalize_scores scores) i == 1.
Proof.
  intros Hne. destruct scores as [|x l]; [done|].
  destruct (py_max_spec x l) as [Hin _].
  apply list_elem_of_lookup in Hin as [i Hi].
  exists i. split; [by eapply lookup_lt_Some|].
  destruct (lookup_lt_is_Some_2 (_normalize_scores (x :: l)) i) as [n Hn];
    [rewrite normalize_length; by eapply lookup_lt_Some|].
  destruct (Forall2_lookup_lr _ _ _ _ _ _ (normalize_endpoints x l) Hi Hn) as [Hmax _].
  rewrite (at_lookup _ _ _ Hn). apply Hmax. reflexivity.
Qed.

(** X15. With a weight between 0 and 1 the top fused score is at least
    the weight and at least one minus the weight: the candidate of
    greatest semantic score and the one of greatest lexical score are
    ranked no higher than the first. *)
Theorem X15_top_fused_score ALPHA self index query vr h (ds : list dict) :
  bm25 self = Some index →
  (length (chunk_ids self) ≤ length (get_scores index (_tokenize query)))%nat →
  contents h vr = Some ds →
  Forall well_formed ds →
  ds ≠ [] →
  0 <= ALPHA <= 1 →
  ∃ out h' top rest,
    rerank ALPHA self query vr h = Ok (out, h')
    ∧ contents h' out = Some (top :: rest)
    ∧ ALPHA <= fused_score top
    ∧ 1 - ALPHA <= fused_score top.
Proof.
  intros Hbm Hlen Hvr Hwf Hne Halpha.
  destruct (rerank_total ALPHA self index query vr h ds Hbm Hlen Hvr Hwf)
    as (out & h' & m & vs & bs & Hrun & _ & Hvs & Hbs & Hout & _).
  apply Forall2_length in Hvs, Hbs.
  set (output := rank_by (hybrid_scores ALPHA vs bs) (fused ALPHA vs bs ds)) in *.
  assert (output ≡ₚ fused ALPHA vs bs ds) as Hperm.
  { apply rank_by_perm. unfold hybrid_scores. rewrite fused_length, length_imap. lia. }
  pose proof (rank_by_fused_sorted ALPHA vs bs ds (eq_sym Hvs)) as Hsorted.
  fold output in Hsorted.
  assert (∀ i, (i < length ds)%nat →
            ∃ top rest, output = top :: rest
              ∧ hybrid ALPHA (at_ (_normalize_scores vs) i) (at_ (_normalize_scores bs) i)
                <= fused_score top) as Htop.
  { intros i Hi. destruct (lookup_lt_is_Some_2 ds i Hi) as [d Hd].
    set (record := fused_record ALPHA (_normalize_scores vs) (_normalize_scores bs) bs i d).
    assert (record ∈ output) as Hin.
    { apply (elem_of_Permutation_proper record _ _ Hperm).
      apply (list_elem_of_lookup_2 _ i). by rewrite fused_lookup, Hd. }
    destruct output as [|top rest]; [by apply elem_of_nil in Hin|].
    exists top, rest. split; [done|].
    rewrite <- (fused_score_record ALPHA _ _ bs i d). fold record.
    apply StronglySorted_inv in Hsorted as [_ Hall].
    apply elem_of_cons in Hin as [->|Hin]; [apply Qle_refl|].
    rewrite Forall_forall in Hall. by apply Hall. }
  assert (vs ≠ [] ∧ bs ≠ []) as [Hvne Hbne].
  { destruct ds; [done|]. by destruct vs, bs. }
  destruct (normalized_one vs Hvne) as (i & Hi & Hi1).
  destruct (normalized_one bs Hbne) as (j & Hj & Hj1).
  destruct (Htop i) as (top & rest & Heq & Hitop); [lia|].
  destruct (Htop j) as (top' & rest' & Heq' & Hjtop); [lia|].
  rewrite Heq in Heq'. injection Heq' as <- <-.
  exists out, h', top, rest. split_and!; [exact Hrun|by rewrite <- Heq| |].
  - eapply Qle_trans; [|exact Hitop]. unfold hybrid. rewrite Hi1.
    pose proof (normalize_unit bs i ltac:(lia)). nra.
  - eapply Qle_trans; [|exact Hjtop]. unfold hybrid. rewrite Hj1.
    pose proof (normalize_unit vs j ltac:(lia)). nra.
Qed.

End fused_score.

Lemma scenario_candidate_well_formed : Aux.well_formed (Scenario.candidate 10 (9 # 10)).
Proof. split; by eexists. Qed.

Lemma X13_witness :
  ∃ out h' output,
    HybridReranker.rerank config.ALPHA Scenario.reranker "iso" 3%positive Scenario.store
      = Ok (out, h')
    ∧ Heap.contents h' out = Some output
    ∧ Forall (λ d, ∃ s, Aux.number "hybrid_score" d = Some s ∧ (0 <= s <= 1)%Q) output.
Proof.
  apply (X13_fused_score_unit config.ALPHA Scenario.reranker Scenario.index "iso" 3%positive
           Scenario.store Scenario.candidates eq_refl (le_n 2) eq_refl
           scenario_well_formed).
  split; discriminate.
Defined.

Lemma X15_witness :
  ∃ out h' top rest,
    HybridReranker.rerank config.ALPHA Scenario.reranker "iso" 3%positive Scenario.store
      = Ok (out, h')
    ∧ Heap.contents h' out = Some (top :: rest)
    ∧ (config.ALPHA <= Aux.fused_score top)%Q
    ∧ (1 - config.ALPHA <= Aux.fused_score top)%Q.
Proof.
  apply (X15_top_fused_score config.ALPHA Scenario.reranker Scenario.index "iso" 3%positive
           Scenario.store Scenario.candidates eq_refl (le_n 2) eq_refl
           scenario_well_formed).
  - discriminate.
  - split; discriminate.
Defined.

Lemma X14_witness :
  ∃ out h' record s,
    HybridReranker.rerank config.ALPHA Scenario.reranker "iso" 2%positive Lone.store
      = Ok (out, h')
    ∧ Heap.contents h' out = Some [record]
    ∧ record !! "hybrid_score" = Some (VFloat s)
    ∧ (s == 1)%Q.
Proof.
  destruct (X14_single_candidate config.ALPHA Scenario.reranker Scenario.index "iso"
              2%positive Lone.store Lone.candidate AnswerGenerator.init
              eq_refl (le_n 2) eq_refl)
    as (out & h' & record & s & Hrun & Hout & Hrec & Hs & _).
  - split; by eexists.
  - discriminate.
  - exists out, h', record, s. split_and!; [exact Hrun|exact Hout|exact Hrec|exact Hs].
Defined.

(** ** The hybrid search *)

Section hybrid_search.
Import Heap HybridReranker Aux.
Local Open Scope nat_scope.

Lemma slice_to_Forall2 {A B} (R : A → B → Prop) (l : list A) (k : list B) (n : Z) :
  Forall2 R l k → Forall2 R (slice_to l n) (slice_to k n).
Proof.
  intros H. unfold slice_to. rewrite (Forall2_length _ _ _ H).
  destruct (0 <=? n)%Z; by apply Forall2_take.
Qed.

Lemma slice_to_length {A} (l : list A) (n : Z) :
  (0 ≤ n)%Z → length (slice_to l n) = Z.to_nat n `min` length l.
Proof.
  intros Hn. unfold slice_to. apply Z.leb_le in Hn. rewrite Hn. apply length_take.
Qed.

(** A new list of existing dictionaries holds their contents. *)
Lemma contents_alloc h (items : list loc) (ds : list dict) :
  Forall2 (λ r d, h !! r = Some (ODict d)) items ds →
  contents (<[fresh (dom h) := OList items]> h) (fresh (dom h)) = Some ds.
Proof.
  intros Hitems. apply contents_Some. exists items.
  split; [apply lookup_insert_eq|].
  eapply Forall2_impl; [exact Hitems|]. intros r d Hr. simpl.
  rewrite lookup_insert_ne; [done|]. intros Heq.
  pose proof (fresh_None h) as Hf. rewrite Heq in Hf. congruence.
Qed.

(** [search_with_reranking] once the retriever has answered and [rerank]
    has returned the list [ranked]. *)
Lemma search_with_reranking_run ALPHA self query vector_search k h h1 h2
    (cands out : loc) (found : list loc) (ranked : list dict) :
  vector_search query config.CANDIDATE_K h = Ok (cands, h1) →
  h1 !! cands = Some (OList found) →
  found ≠ [] →
  rerank ALPHA self query cands h1 = Ok (out, h2) →
  contents h2 out = Some ranked →
  ∃ L h',
    search_with_reranking ALPHA self query vector_search k h = Ok (L, h')
    ∧ h2 !! L = None
    ∧ h2 ⊆ h'
    ∧ contents h' L = Some (slice_to ranked k).
Proof.
  intros Hsearch Hcands Hne Hrerank (items & Hout & Hitems)%contents_Some.
  exists (fresh (dom h2)), (<[fresh (dom h2) := OList (slice_to items k)]> h2).
  split_and!.
  - unfold search_with_reranking.
    rewrite bind_eq, Hsearch, bind_eq, (read_list_run _ _ _ Hcands).
    destruct found as [|r found]; [done|].
    rewrite bind_eq, Hrerank, bind_eq, (read_list_run _ _ _ Hout). done.
  - apply fresh_None.
  - apply insert_subseteq, fresh_None.
  - apply contents_alloc. by apply slice_to_Forall2.
Qed.

(** X16. Without an index the hybrid search returns, in a new list, the
    first [k] candidates of the retriever in the retriever's order (for an
    empty answer of the retriever, a new empty list); the records are the
    retriever's own, without fused score. *)
Theorem X16_hybrid_search_no_index ALPHA self query vector_search (k : Z) h h1
    (cands : loc) (ds : list dict) :
  bm25 self = None →
  vector_search query config.CANDIDATE_K h = Ok (cands, h1) →
  contents h1 cands = Some ds →
  ∃ L h',
    search_with_reranking ALPHA self query vector_search k h = Ok (L, h')
    ∧ h1 !! L = None
    ∧ h1 ⊆ h'
    ∧ contents h' L = Some (slice_to ds k)
    ∧ ((0 ≤ k)%Z → length (slice_to ds k) = Z.to_nat k `min` length ds).
Proof.
  intros Hbm Hsearch Hds.
  pose proof Hds as (found & Hcands & Hfound)%contents_Some.
  destruct (decide (found = [])) as [->|Hne].
  - apply Forall2_nil_inv_l in Hfound as ->.
    exists (fresh (dom h1)), (<[fresh (dom h1) := OList []]> h1). split_and!.
    + unfold search_with_reranking.
      by rewrite bind_eq, Hsearch, bind_eq, (read_list_run _ _ _ Hcands).
    + apply fresh_None.
    + apply insert_subseteq, fresh_None.
    + unfold slice_to. rewrite !take_nil.
      destruct (0 <=? k)%Z; apply contents_alloc; constructor.
    + apply slice_to_length.
  - destruct (search_with_reranking_run ALPHA self query vector_search k h h1 h1
                cands cands found ds Hsearch Hcands Hne) as (L & h' & Hrun & HL & Hsub & Hc).
    { by apply (rerank_guard _ _ _ _ _ found); [|right]. }
    { exact Hds. }
    exists L, h'. split_and!; try done. apply slice_to_length.
Qed.

(** The slice is a prefix: what it leaves out follows it. *)
Lemma slice_to_prefix {A} (l : list A) (n : Z) :
  ∃ rest, l = slice_to l n ++ rest.
Proof.
  unfold slice_to. destruct (0 <=? n)%Z; eexists; symmetry; apply take_drop.
Qed.

(** X17. With an index the hybrid search returns, in a new list, a prefix
    of what [rerank] gives for the retriever's candidates: the first [k]
    records, so that no record left out has a greater fused score than a
    record returned.  The retriever's list keeps its contents.  For
    [k >= 0] the result has [min k n] records for [n] candidates. *)
Theorem X17_hybrid_search ALPHA self index query vector_search (k : Z) h h1
    (cands : loc) (ds : list dict) :
  bm25 self = Some index →
  length (chunk_ids self) ≤ length (get_scores index (_tokenize query)) →
  vector_search query config.CANDIDATE_K h = Ok (cands, h1) →
  contents h1 cands = Some ds →
  Forall well_formed ds →
  ∃ L h' out h2 ranked rest,
    rerank ALPHA self query cands h1 = Ok (out, h2)
    ∧ contents h2 out = Some ranked
    ∧ search_with_reranking ALPHA self query vector_search k h = Ok (L, h')
    ∧ h2 !! L = None
    ∧ contents h' cands = Some ds
    ∧ contents h' L = Some (slice_to ranked k)
    ∧ ranked = slice_to ranked k ++ rest
    ∧ (∀ x y, x ∈ slice_to ranked k → y ∈ rest → (fused_score y <= fused_score x)%Q)
    ∧ ((0 ≤ k)%Z → length (slice_to ranked k) = Z.to_nat k `min` length ds).
Proof.
  intros Hbm Hlen Hsearch Hds Hwf.
  destruct (rerank_total ALPHA self index query cands h1 ds Hbm Hlen Hds Hwf)
    as (out & h2 & m & vs & bs & Hrerank & _ & Hvs & _ & Hout & Hsub2 & _).
  pose proof Hds as (found & Hcands & Hfound)%contents_Some.
  pose proof (Forall2_length _ _ _ Hvs) as Hlvs.
  set (ranked := rank_by (hybrid_scores ALPHA vs bs) (fused ALPHA vs bs ds)) in *.
  assert (length ranked = length ds) as Hranked.
  { unfold ranked. rewrite rank_by_perm; [apply fused_length|].
    unfold hybrid_scores. rewrite fused_length, length_imap. lia. }
  assert (StronglySorted (λ x y, (fused_score y <= fused_score x)%Q) ranked) as Hsorted
    by (by apply rank_by_fused_sorted).
  destruct (slice_to_prefix ranked k) as [rest Hrest].
  assert (∀ x y, x ∈ slice_to ranked k → y ∈ rest → (fused_score y <= fused_score x)%Q)
    as Htop.
  { intros x y Hx Hy. rewrite Hrest in Hsorted.
    exact (StronglySorted_app_1_elem_of _ _ _ _ _ Hsorted Hx Hy). }
  assert (∀ h', h1 ⊆ h' → contents h' cands = Some ds) as Hkeep.
  { intros h' Hsub. apply contents_Some. exists found.
    split; [exact (lookup_weaken _ _ _ _ Hcands Hsub)|].
    eapply Forall2_impl; [exact Hfound|]. intros r d Hr.
    exact (lookup_weaken _ _ _ _ Hr Hsub). }
  destruct (decide (found = [])) as [->|Hne].
  - apply Forall2_nil_inv_l in Hfound as ->.
    rewrite (rerank_guard ALPHA self query cands h1 [] Hcands (or_introl eq_refl))
      in Hrerank.
    injection Hrerank as <- <-.
    destruct ranked as [|? ?]; [|done].
    exists (fresh (dom h1)), (<[fresh (dom h1) := OList []]> h1), cands, h1, [], rest.
    assert (h1 ⊆ <[fresh (dom h1) := OList []]> h1) as Hsub
      by apply insert_subseteq, fresh_None.
    split_and!.
    + by apply (rerank_guard _ _ _ _ _ []); [|left].
    + exact Hds.
    + unfold search_with_reranking.
      by rewrite bind_eq, Hsearch, bind_eq, (read_list_run _ _ _ Hcands).
    + apply fresh_None.
    + by apply Hkeep.
    + unfold slice_to. rewrite !take_nil.
      destruct (0 <=? k)%Z; apply contents_alloc; constructor.
    + exact Hrest.
    + exact Htop.
    + apply slice_to_length.
  - destruct (search_with_reranking_run ALPHA self query vector_search k h h1 h2
                cands out found ranked Hsearch Hcands Hne Hrerank Hout)
      as (L & h' & Hrun & HL & Hsub & Hc).
    exists L, h', out, h2, ranked, rest.
    assert (h1 ⊆ h') as Hsub1 by (by etrans).
    split_and!; try done.
    + by apply Hkeep.
    + intros Hk. by rewrite slice_to_length, Hranked.
Qed.

End hybrid_search.

(** ** Building the index, and what [rerank] raises *)

Section build_and_errors.
Import Heap HybridReranker Aux.
Local Open Scope nat_scope.

Lemma build_nonempty BM25Okapi_new self (chunks : list (Z * string)) :
  chunks ≠ [] →
  _build_bm25_index BM25Okapi_new self chunks
  = {| bm25 := Some (BM25Okapi_new ((λ c, _tokenize c.2) <$> chunks));
       corpus := snd <$> chunks;
       chunk_ids := chunk_ids self ++ (fst <$> chunks) |}.
Proof. by destruct chunks. Qed.

(** X18. A reranker constructed over a non-empty table of chunks, with
    an index that answers one score per document, knows the identifiers
    of the chunks in the order of the table, and its [rerank] returns on
    every list of candidates that carry a semantic score and an
    identifier: as many records as candidates. *)
Theorem X18_init_then_rerank (BM25Okapi_new : list (list string) → BM25Okapi) ALPHA
    (chunks : list (Z * string)) query vr h (ds : list dict) :
  (∀ q, length (get_scores (BM25Okapi_new ((λ c, _tokenize c.2) <$> chunks)) q)
        = length chunks) →
  chunks ≠ [] →
  contents h vr = Some ds →
  Forall well_formed ds →
  chunk_ids (init BM25Okapi_new chunks) = chunks.*1
  ∧ corpus (init BM25Okapi_new chunks) = chunks.*2
  ∧ ∃ out h' output,
      rerank ALPHA (init BM25Okapi_new chunks) query vr h = Ok (out, h')
      ∧ contents h' out = Some output
      ∧ length output = length ds.
Proof.
  intros Hscores Hne Hvr Hwf. unfold init. rewrite (build_nonempty _ _ _ Hne).
  split_and!; [done..|].
  set (index := BM25Okapi_new ((λ c, _tokenize c.2) <$> chunks)).
  set (self := {| bm25 := Some index; corpus := chunks.*2; chunk_ids := [] ++ chunks.*1 |}).
  destruct (rerank_total ALPHA self index query vr h ds eq_refl)
    as (out & h' & m & vs & bs & Hrun & _ & Hvs & _ & Hout & _); [|exact Hvr|exact Hwf|].
  { unfold self, index. cbn [chunk_ids app]. by rewrite Hscores, length_fmap. }
  exists out, h', (rank_by (hybrid_scores ALPHA vs bs) (fused ALPHA vs bs ds)).
  split_and!; [exact Hrun|exact Hout|].
  rewrite rank_by_perm; [apply fused_length|].
  unfold hybrid_scores. rewrite fused_length, length_imap.
  apply Forall2_length in Hvs. lia.
Qed.

(** The loop over the identifiers runs out of scores. *)
Lemma id_to_bm25_loop_short (scores : list Q) (ids : list Z) : ∀ (n : nat) (m0 : gmap Z Q),
  n ≤ length scores → length scores < n + length ids →
  Py.for_each (λ (m : gmap Z Q) (x : nat * Z),
                 s ← Py.index scores x.1; Ok (<[x.2 := s]> m))
              (imap (λ i z, (n + i, z)) ids) m0 = Raise IndexError.
Proof.
  induction ids as [|z0 ids IH]; intros n m0 Hn Hlen; [simpl in Hlen; lia|].
  cbn [imap Py.for_each]. simpl.
  destruct (decide (n < length scores)) as [Hlt|Hge].
  - rewrite Nat.add_0_r, (index_run scores n Hlt). simpl.
    rewrite (imap_ext _ (λ i z, (S n + i, z))).
    + apply IH; simpl in *; lia.
    + intros i z _. simpl. f_equal. lia.
  - unfold Py.index. rewrite Nat.add_0_r, lookup_ge_None_2 by lia. done.
Qed.

Lemma id_to_bm25_short (ids : list Z) (scores : list Q) :
  length scores < length ids → id_to_bm25 ids scores = Raise IndexError.
Proof.
  intros Hlen. unfold id_to_bm25.
  rewrite (imap_ext _ (λ i z, (0 + i, z))) by done.
  apply id_to_bm25_loop_short; lia.
Qed.

(** X19. [_build_bm25_index] called again on a constructed reranker
    appends the identifiers to those it has and replaces the index: with
    an index that answers one score per document, [rerank] then raises
    [IndexError] on every non-empty list of candidates. *)
Theorem X19_rebuild_then_rerank (BM25Okapi_new : list (list string) → BM25Okapi) ALPHA
    (chunks chunks' : list (Z * string)) query vr h (items : list loc) :
  (∀ q, length (get_scores (BM25Okapi_new ((λ c, _tokenize c.2) <$> chunks')) q)
        = length chunks') →
  chunks ≠ [] → chunks' ≠ [] →
  h !! vr = Some (OList items) → items ≠ [] →
  chunk_ids (_build_bm25_index BM25Okapi_new (init BM25Okapi_new chunks) chunks')
    = chunks.*1 ++ chunks'.*1
  ∧ rerank ALPHA (_build_bm25_index BM25Okapi_new (init BM25Okapi_new chunks) chunks')
      query vr h = Raise IndexError.
Proof.
  intros Hscores Hne Hne' Hvr Hitems. unfold init.
  rewrite (build_nonempty _ _ chunks Hne), (build_nonempty _ _ chunks' Hne').
  split; [done|].
  unfold rerank. rewrite bind_eq, (read_list_run _ _ _ Hvr).
  destruct items as [|r items]; [done|]. cbn [bm25 chunk_ids].
  rewrite bind_eq, id_to_bm25_short; [done|].
  rewrite Hscores, length_app, !length_fmap.
  destruct chunks; [done|]. simpl. lia.
Qed.

(** A comprehension stops at the first element that raises. *)
Lemma res_mapM_raise {A B} (f : A → res B) (pre : list A) (x : A) (post : list A) e :
  Forall (λ a, ∃ b, f a = Ok b) pre → f x = Raise e →
  mapM f (pre ++ x :: post) = Raise e.
Proof.
  intros Hpre Hx. induction Hpre as [|a pre [b Hb] _ IH]; cbn [app mapM].
  - by rewrite Hx.
  - rewrite Hb. simpl. by rewrite IH.
Qed.

Lemma res_mapM_total {A B} (f : A → res B) (l : list A) :
  Forall (λ a, ∃ b, f a = Ok b) l → ∃ bs, mapM f l = Ok bs.
Proof.
  induction 1 as [|a l [b Hb] _ [bs IH]]; [by exists []|].
  exists (b :: bs). cbn [mapM]. rewrite Hb. simpl. by rewrite IH.
Qed.

(** X20. With an index, [rerank] raises [KeyError('vector_score')] for
    the first candidate without a semantic score, whether or not the
    candidates carry identifiers. *)
Theorem X20_missing_vector_score ALPHA self index query vr h
    (pre : list dict) (d : dict) (post : list dict) :
  bm25 self = Some index →
  length (chunk_ids self) ≤ length (get_scores index (_tokenize query)) →
  contents h vr = Some (pre ++ d :: post) →
  Forall (λ c, is_Some (number "vector_score" c)) pre →
  d !! "vector_score" = None →
  rerank ALPHA self query vr h = Raise (KeyError "vector_score").
Proof.
  intros Hbm Hlen (items & Hvr & Hitems)%contents_Some Hpre Hd.
  destruct (id_to_bm25_Ok _ _ Hlen) as (m & Hm & _).
  unfold rerank. rewrite bind_eq, (read_list_run _ _ _ Hvr).
  destruct items as [|r items].
  { apply Forall2_nil_inv_l in Hitems. by destruct pre. }
  rewrite Hbm. rewrite bind_eq, (lift_run _ _ _ Hm).
  rewrite bind_eq, (mapM_read _ _ _ _ Hitems).
  rewrite (res_mapM_raise _ pre d post (KeyError "vector_score")); [done| |].
  - eapply Forall_impl; [exact Hpre|]. intros c [v Hv]. exists v.
    by apply number_as_num.
  - unfold Py.getitem. by rewrite Hd.
Qed.

(** X21. With an index, when every candidate carries a semantic score,
    [rerank] raises [KeyError('id')] for the first candidate without an
    identifier. *)
Theorem X21_missing_id ALPHA self index query vr h
    (pre : list dict) (d : dict) (post : list dict) :
  bm25 self = Some index →
  length (chunk_ids self) ≤ length (get_scores index (_tokenize query)) →
  contents h vr = Some (pre ++ d :: post) →
  Forall (λ c, is_Some (number "vector_score" c)) (pre ++ d :: post) →
  Forall (λ c : dict, is_Some (c !! "id")) pre →
  d !! "id" = None →
  rerank ALPHA self query vr h = Raise (KeyError "id").
Proof.
  intros Hbm Hlen (items & Hvr & Hitems)%contents_Some Hvs Hpre Hd.
  destruct (id_to_bm25_Ok _ _ Hlen) as (m & Hm & _).
  destruct (res_mapM_total (λ c : dict, Py.getitem c "vector_score" ≫= Py.as_num)
              (pre ++ d :: post)) as [vs Hvs'].
  { eapply Forall_impl; [exact Hvs|]. intros c [v Hv]. exists v.
    by apply number_as_num. }
  unfold rerank. rewrite bind_eq, (read_list_run _ _ _ Hvr).
  destruct items as [|r items].
  { apply Forall2_nil_inv_l in Hitems. by destruct pre. }
  rewrite Hbm. rewrite bind_eq, (lift_run _ _ _ Hm).
  rewrite bind_eq, (mapM_read _ _ _ _ Hitems), (lift_run _ _ _ Hvs').
  rewrite bind_eq, (mapM_read _ _ _ _ Hitems).
  rewrite (res_mapM_raise _ pre d post (KeyError "id")); [done| |].
  - eapply Forall_impl; [exact Hpre|]. intros c [key Hkey]. eexists.
    apply getitem_Ok in Hkey. by rewrite Hkey.
  - unfold Py.getitem. by rewrite Hd.
Qed.

End build_and_errors.

(** ** The further properties at the sample data *)

Lemma X16_witness :
  ∃ L h',
    HybridReranker.search_with_reranking config.ALPHA
      (HybridReranker.init Lone.BM25Okapi_new []) "iso" Lone.vector_search 1 ∅ = Ok (L, h')
    ∧ Heap.contents h' L = Some (HybridReranker.slice_to Scenario.candidates 1).
Proof.
  destruct (X16_hybrid_search_no_index config.ALPHA
              (HybridReranker.init Lone.BM25Okapi_new []) "iso" Lone.vector_search 1 ∅
              Scenario.store 3%positive Scenario.candidates eq_refl eq_refl eq_refl)
    as (L & h' & Hrun & _ & _ & Hc & _).
  exists L, h'. split; [exact Hrun|exact Hc].
Defined.

Lemma X17_witness :
  ∃ L h' ranked,
    HybridReranker.search_with_reranking config.ALPHA Scenario.reranker "iso"
      Lone.vector_search 1 ∅ = Ok (L, h')
    ∧ Heap.contents h' L = Some (HybridReranker.slice_to ranked 1)
    ∧ length (HybridReranker.slice_to ranked 1) = 1%nat.
Proof.
  destruct (X17_hybrid_search config.ALPHA Scenario.reranker Scenario.index "iso"
              Lone.vector_search 1 ∅ Scenario.store 3%positive Scenario.candidates
              eq_refl (le_n 2) eq_refl eq_refl scenario_well_formed)
    as (L & h' & out & h2 & ranked & rest & _ & _ & Hrun & _ & _ & Hc & _ & _ & Hlen).
  exists L, h', ranked. split_and!; [exact Hrun|exact Hc|].
  exact (Hlen (Z.le_0_1)).
Defined.

Lemma X18_witness :
  HybridReranker.chunk_ids (HybridReranker.init Lone.BM25Okapi_new Lone.chunks)
    = [10%Z; 11%Z]
  ∧ ∃ out h' output,
      HybridReranker.rerank config.ALPHA
        (HybridReranker.init Lone.BM25Okapi_new Lone.chunks) "iso" 3%positive Scenario.store
        = Ok (out, h')
      ∧ Heap.contents h' out = Some output
      ∧ length output = 2%nat.
Proof.
  destruct (X18_init_then_rerank Lone.BM25Okapi_new config.ALPHA Lone.chunks "iso"
              3%positive Scenario.store Scenario.candidates)
    as (Hids & _ & out & h' & output & Hrun & Hout & Hlen).
  - intros q. reflexivity.
  - discriminate.
  - reflexivity.
  - exact scenario_well_formed.
  - split; [exact Hids|]. exists out, h', output.
    split_and!; [exact Hrun|exact Hout|exact Hlen].
Defined.

Lemma X19_witness :
  HybridReranker.rerank config.ALPHA
    (HybridReranker._build_bm25_index Lone.BM25Okapi_new
       (HybridReranker.init Lone.BM25Okapi_new Lone.chunks) Lone.chunks)
    "iso" 2%positive Lone.store = Raise IndexError.
Proof.
  refine (proj2 (X19_rebuild_then_rerank Lone.BM25Okapi_new config.ALPHA Lone.chunks
                   Lone.chunks "iso" 2%positive Lone.store [1%positive]
                   (λ q, eq_refl) _ _ eq_refl _)); discriminate.
Defined.

Lemma X20_witness :
  HybridReranker.rerank config.ALPHA Scenario.reranker "iso" 2%positive
    (Lone.store_of Lone.unscored) = Raise (KeyError "vector_score").
Proof.
  apply (X20_missing_vector_score config.ALPHA Scenario.reranker Scenario.index "iso"
           2%positive (Lone.store_of Lone.unscored) [] Lone.unscored []
           eq_refl (le_n 2) eq_refl).
  - constructor.
  - reflexivity.
Defined.

Lemma X21_witness :
  HybridReranker.rerank config.ALPHA Scenario.reranker "iso" 2%positive
    (Lone.store_of Lone.anonymous) = Raise (KeyError "id").
Proof.
  apply (X21_missing_id config.ALPHA Scenario.reranker Scenario.index "iso"
           2%positive (Lone.store_of Lone.anonymous) [] Lone.anonymous []
           eq_refl (le_n 2) eq_refl).
  - constructor; [|constructor]. exists (1 # 10)%Q. reflexivity.
  - constructor.
  - reflexivity.
Defined.
